(** * TISPIS: audio to guitar tablature (app.py)

    A shallow embedding of [app.py]: [allowed_file], [hz_to_midi],
    [midi_to_fret], the part of [generate_tabs] that follows the call to
    [librosa.pyin] (masking of the unvoiced frames, conversion to
    semitones, decimation, string selection, rendering) and the
    [/process] route.

    Numbers.  A NumPy [float64] is NaN, an infinity, or a finite value
    carried by the real number it denotes.  The operations of
    [hz_to_midi] round their results to binary64 (round to nearest, ties
    to even, 53 significant bits, gradual underflow, overflow to
    infinity).  [np.log2] is taken as the correctly rounded base-2
    logarithm; a library logarithm can differ from it in the last place,
    so what is stated of the values of [hz_to_midi] is an error bound
    with a margin, not an equality, except at 440 Hz.  The subtraction
    [midi_note - string_tune] of [midi_to_fret] is kept exact; for a
    float64 note and the pitches of a guitar it gives the result of the
    rounded one (see [np_sub_int] and [midi_to_fret_float64_agrees]).
    Python's [int] is [Z].

    Errors.  A Python exception is a [Raise] in the [result] monad. *)

From Stdlib Require Import Reals Lra Lia ZArith Bool List String Ascii.
From Stdlib Require Import DecimalString.
Import ListNotations.

Local Open Scope string_scope.
Local Open Scope list_scope.

(** ** Exceptions and the result monad *)

Inductive exn : Set :=
| ValueError
| OverflowError
| IndexError
| KeyError.

Inductive result (A : Type) : Type :=
| Ok (a : A)
| Raise (e : exn).

Arguments Ok {A} a.
Arguments Raise {A} e.

Definition bind {A B : Type} (m : result A) (k : A -> result B) : result B :=
  match m with
  | Ok a => k a
  | Raise e => Raise e
  end.

Notation "x <- m ;; k" := (bind m (fun x => k))
  (at level 61, m at next level, right associativity).
Notation "' p <- m ;; k" := (bind m (fun x => let p := x in k))
  (at level 61, p pattern, m at next level, right associativity).

(** A [for] loop whose body may raise: left-to-right, stops at the first
    exception. *)
Fixpoint foldM {A S : Type} (body : S -> A -> result S) (l : list A) (s : S)
  : result S :=
  match l with
  | [] => Ok s
  | a :: l' => s' <- body s a ;; foldM body l' s'
  end.

(** A list comprehension whose element expression may raise. *)
Fixpoint mapM {A B : Type} (f : A -> result B) (l : list A) : result (list B) :=
  match l with
  | [] => Ok []
  | a :: l' => b <- f a ;; bs <- mapM f l' ;; Ok (b :: bs)
  end.

(** ** NumPy float64 values

    The sign of a zero is not kept: no operation of the pipeline tells
    the two zeros apart ([np.log2] gives minus infinity on both). *)

Inductive float64 : Type :=
| NaN
| Inf (negative : bool)
| Fin (x : R).

(** [np.isnan] *)
Definition np_isnan (v : float64) : bool :=
  match v with
  | NaN => true
  | _ => false
  end.

(** [v == 0] *)
Definition np_eq_zero (v : float64) : bool :=
  match v with
  | Fin x => if Req_dec_T x 0 then true else false
  | _ => false
  end.

(** The base-2 logarithm of a positive real. *)
Definition log2 (x : R) : R := (ln x / ln 2)%R.

(** Rounding to the nearest integer, halves to the even neighbour. *)
Definition round_half_even (x : R) : Z :=
  let n := Int_part x in
  let d := (x - IZR n)%R in
  if Rlt_dec d (1 / 2) then n
  else if Rlt_dec (1 / 2) d then (n + 1)%Z
  else if Z.even n then n else (n + 1)%Z.

(** *** Rounding to binary64

    [round64 x] is the multiple of the unit in the last place of [x]
    nearest to [x], ties to the even multiple.  The unit in the last
    place is [2^(e - 52)] for [2^e <= |x| < 2^(e + 1)], and [2^-1074] in
    the subnormal range.  [to_float64] adds the overflow to infinity. *)

Definition bpow (e : Z) : R := powerRZ 2 e.

Definition mag (x : R) : Z := Int_part (log2 (Rabs x)).

Definition ulp_exp (x : R) : Z := Z.max (mag x - 52) (-1074).

Definition round64 (x : R) : R :=
  (IZR (round_half_even (x / bpow (ulp_exp x))) * bpow (ulp_exp x))%R.

Definition to_float64 (x : R) : float64 :=
  let r := round64 x in
  if Rle_dec (bpow 1024) (Rabs r)
  then Inf (if Rlt_dec r 0 then true else false)
  else Fin r.

(** [v / c] for a literal [c > 0] *)
Definition np_div_pos (v : float64) (c : R) : float64 :=
  match v with
  | Fin x => to_float64 (x / c)
  | other => other
  end.

(** [c * v] for a literal [c > 0] *)
Definition np_mul_pos (c : R) (v : float64) : float64 :=
  match v with
  | Fin x => to_float64 (c * x)
  | other => other
  end.

(** [v + c] for a finite [c] *)
Definition np_add (v : float64) (c : R) : float64 :=
  match v with
  | Fin x => to_float64 (x + c)
  | other => other
  end.

(** [v - n] for a Python int [n], taken exact.  In float64 the
    difference is rounded; for a float64 note and an open-string pitch
    from 17 to 2^53 the rounded and the exact difference give the same
    result in [midi_to_fret] (see [midi_to_fret_float64_agrees]). *)
Definition np_sub_int (v : float64) (n : Z) : float64 :=
  match v with
  | Fin x => Fin (x - IZR n)
  | other => other
  end.

(** [np.log2]: NaN below zero (with a warning, not an exception), minus
    infinity at zero. *)
Definition np_log2 (v : float64) : float64 :=
  match v with
  | NaN => NaN
  | Inf true => NaN
  | Inf false => Inf false
  | Fin x =>
      if Rlt_dec x 0 then NaN
      else if Req_dec_T x 0 then Inf true
      else to_float64 (log2 x)
  end.

(** ** Python's [round] and [int]

    [round] on a float rounds to the nearest integer, halves to the even
    neighbour; it raises on NaN and on the infinities. *)

Definition py_int_round (v : float64) : result Z :=
  match v with
  | NaN => Raise ValueError
  | Inf _ => Raise OverflowError
  | Fin x => Ok (round_half_even x)
  end.

(** [str] of a Python int *)
Definition str (n : Z) : string := NilZero.string_of_int (Z.to_int n).

(** ** 1. Helper functions of app.py *)

(** [hz_to_midi], on one element of the array:
    [np.where(frequencies == 0, np.nan, frequencies)] and then
    [12 * np.log2(frequencies / 440.0) + 69]. *)
Definition hz_to_midi1 (frequency : float64) : float64 :=
  let frequency := if np_eq_zero frequency then NaN else frequency in
  np_add (np_mul_pos 12 (np_log2 (np_div_pos frequency 440))) 69.

Definition hz_to_midi (frequencies : list float64) : list float64 :=
  map hz_to_midi1 frequencies.

Definition MAX_FRET : Z := 24.

(** [midi_to_fret]: the fret of the note on one string, or -1. *)
Definition midi_to_fret (midi_note : float64) (string_tune : Z) : result Z :=
  fret <- py_int_round (np_sub_int midi_note string_tune) ;;
  if (0 <=? fret)%Z && (fret <=? MAX_FRET)%Z then Ok fret else Ok (-1)%Z.

(** ** Python sequences and dicts *)

Section Sequences.
Context {A : Type}.

(** [l[::step]] walks the list and keeps an element each time the
    countdown [k] reaches zero. *)
Fixpoint take_every (step k : nat) (l : list A) : list A :=
  match l with
  | [] => []
  | x :: l' =>
      match k with
      | O => x :: take_every step (step - 1) l'
      | S k' => take_every step k' l'
      end
  end.

Definition stride (step : nat) (l : list A) : list A := take_every step 0 l.

(** [l[i:j]] for [0 <= i <= j] *)
Definition slice (l : list A) (i j : nat) : list A :=
  firstn (j - i) (skipn i l).

(** [d[key]] on an insertion-ordered dict *)
Fixpoint dict_get (d : list (string * A)) (key : string) : result A :=
  match d with
  | [] => Raise KeyError
  | (k, v) :: d' => if String.eqb k key then Ok v else dict_get d' key
  end.
End Sequences.

(** [range(0, stop, step)]: the fuel [stop] is enough for every
    [step >= 1]. *)
Fixpoint range_from (fuel i stop step : nat) : list nat :=
  match fuel with
  | O => []
  | S fuel' =>
      if (i <? stop)%nat then i :: range_from fuel' (i + step) stop step else []
  end.

Definition py_range (stop step : nat) : list nat := range_from stop 0 stop step.

(** ** 2. generate_tabs *)

(** [f0[~voiced_flag] = np.nan]; a boolean index of another length
    raises [IndexError]. *)
Definition mask_unvoiced (f0 : list float64) (voiced_flag : list bool)
  : result (list float64) :=
  if (List.length f0 =? List.length voiced_flag)%nat
  then Ok (map (fun fv : float64 * bool => if snd fv then fst fv else NaN)
               (combine f0 voiced_flag))
  else Raise IndexError.

(** The Pitch Normalizer: masking followed by [hz_to_midi]. *)
Definition midi_notes_of (f0 : list float64) (voiced_flag : list bool)
  : result (list float64) :=
  f0' <- mask_unvoiced f0 voiced_flag ;;
  Ok (hz_to_midi f0').

Definition tuning : Type := list (string * Z).
Definition tab_lines_t : Type := list (string * list string).

Definition guitar_tuning : tuning :=
  [("e", 64); ("B", 59); ("G", 55); ("D", 50); ("A", 45); ("E", 40)]%Z.

Definition step : nat := 5.
Definition chunk_size : nat := 60.
Definition display_order : list string := ["e"; "B"; "G"; "D"; "A"; "E"].

(** [{k: [] for k in guitar_tuning.keys()}] *)
Definition empty_tab_lines (t : tuning) : tab_lines_t :=
  map (fun entry => (fst entry, [])) t.

(** The body of [for string_name, string_pitch in guitar_tuning.items()];
    the loop state is [(best_string, min_fret)]. *)
Definition try_string (note : float64) (st : option string * Z)
    (entry : string * Z) : result (option string * Z) :=
  fret <- midi_to_fret note (snd entry) ;;
  if negb (fret =? -1)%Z && (fret <? snd st)%Z
  then Ok (Some (fst entry), fret)
  else Ok st.

(** The Fretboard Mapper on one non-NaN note: [best_string = None],
    [min_fret = 100], then the loop over the strings. *)
Definition choose_string (t : tuning) (note : float64)
  : result (option string * Z) :=
  foldM (try_string note) t (None, 100%Z).

(** [string == best_string] *)
Definition is_best (s : string) (best_string : option string) : bool :=
  match best_string with
  | Some b => String.eqb s b
  | None => false
  end.

(** [for string in tab_lines: tab_lines[string].append(...)] *)
Definition append_column (symbol : string -> string) (tab_lines : tab_lines_t)
  : tab_lines_t :=
  map (fun kl => (fst kl, snd kl ++ [symbol (fst kl)])) tab_lines.

(** The symbol one note puts on the line of string [s]. *)
Definition symbol_of (st : option string * Z) (s : string) : string :=
  if is_best s (fst st) then str (snd st) else "-".

(** The body of [for note in processed_notes]. *)
Definition place_note (t : tuning) (tab_lines : tab_lines_t) (note : float64)
  : result tab_lines_t :=
  if np_isnan note
  then Ok (append_column (fun _ => "-") tab_lines)
  else
    st <- choose_string t note ;;
    Ok (append_column (symbol_of st) tab_lines).

Definition fill_tab_lines (t : tuning) (processed_notes : list float64)
  : result tab_lines_t :=
  foldM (place_note t) processed_notes (empty_tab_lines t).

(** One TabBlock before serialization: for each displayed string its
    label and [tab_lines[string_name][i:i+chunk_size]]. *)
Definition block_segments (tab_lines : tab_lines_t) (i : nat)
  : result (list (string * list string)) :=
  mapM (fun string_name =>
          line <- dict_get tab_lines string_name ;;
          Ok (string_name, slice line i (i + chunk_size)))
       display_order.

Definition newline : string := String (ascii_of_nat 10) EmptyString.

(** [f"{string_name}|{line_str}|"] with [line_str = "".join(segment)] *)
Definition format_line (ls : string * list string) : string :=
  fst ls ++ "|" ++ String.concat "" (snd ls) ++ "|".

(** ["\n".join(block)] *)
Definition block_text (b : list (string * list string)) : string :=
  String.concat newline (map format_line b).

Definition tab_blocks (tab_lines : tab_lines_t)
  : result (list (list (string * list string))) :=
  line_E <- dict_get tab_lines "E" ;;
  let total_length := List.length line_E in
  mapM (block_segments tab_lines) (py_range total_length chunk_size).

(** [final_output]: each block text followed by the element ["\n"]. *)
Definition final_output_of (blocks : list (list (string * list string)))
  : list string :=
  flat_map (fun b => [block_text b; newline]) blocks.

Definition render (tab_lines : tab_lines_t) : result string :=
  blocks <- tab_blocks tab_lines ;;
  Ok (String.concat newline (final_output_of blocks)).

(** [generate_tabs] from the output of [librosa.pyin] on. *)
Definition processed_notes_of (f0 : list float64) (voiced_flag : list bool)
  : result (list float64) :=
  midi_notes <- midi_notes_of f0 voiced_flag ;;
  Ok (stride step midi_notes).

Definition generate_tabs (f0 : list float64) (voiced_flag : list bool)
  : result string :=
  processed_notes <- processed_notes_of f0 voiced_flag ;;
  tab_lines <- fill_tab_lines guitar_tuning processed_notes ;;
  render tab_lines.

(** ** Views used by the statements *)

(** The ceiling of [n / d]. *)
Definition ceil_div (n d : nat) : nat := (n + d - 1) / d.

(** A frequency or semitone sample of the data model: NaN (silence) or
    a real number, never an infinity. *)
Definition is_inf (v : float64) : bool :=
  match v with
  | Inf _ => true
  | _ => false
  end.

Definition samples (l : list float64) : Prop :=
  Forall (fun v => is_inf v = false) l.

(** Validity of a candidate fret. *)
Definition valid_fret (fret : Z) : Prop := (0 <= fret <= MAX_FRET)%Z.

(** The candidate fret of a finite note on a string, as computed by
    [midi_to_fret] before the range test. *)
Definition candidate_fret (x : R) (string_tune : Z) : Z :=
  round_half_even (x - IZR string_tune).

(** [first_minimal x t st]: the loop state [st = (best_string, min_fret)]
    is the first string of [t] that reaches the smallest valid candidate
    fret of the note [x], or the initial state when no candidate is
    valid. *)
Definition first_minimal (x : R) (t : tuning) (st : option string * Z) : Prop :=
  match fst st with
  | None =>
      snd st = 100%Z /\
      forall s p, In (s, p) t -> ~ valid_fret (candidate_fret x p)
  | Some s =>
      exists i p,
        nth_error t i = Some (s, p) /\
        snd st = candidate_fret x p /\
        valid_fret (snd st) /\
        (forall j sj pj,
            nth_error t j = Some (sj, pj) ->
            valid_fret (candidate_fret x pj) ->
            (snd st <= candidate_fret x pj)%Z) /\
        (forall j sj pj,
            j < i ->
            nth_error t j = Some (sj, pj) ->
            valid_fret (candidate_fret x pj) ->
            (snd st < candidate_fret x pj)%Z)
  end.

(** The FretAssignment of one note, read off the loop state of
    [generate_tabs]: SILENT ([None]) on NaN and when [best_string] stays
    [None], otherwise [(best_string, min_fret)]. *)
Definition assignment_of_state (st : option string * Z) : option (string * Z) :=
  match fst st with
  | Some s => Some (s, snd st)
  | None => None
  end.

Definition fret_assignment (t : tuning) (note : float64)
  : result (option (string * Z)) :=
  if np_isnan note then Ok None
  else st <- choose_string t note ;; Ok (assignment_of_state st).

(** The symbol a FretAssignment puts on the line of string [s]. *)
Definition column_symbol (a : option (string * Z)) (s : string) : string :=
  match a with
  | Some (b, fret) => if String.eqb s b then str fret else "-"
  | None => "-"
  end.

(** The tab lines of a sequence of FretAssignments. *)
Definition lines_of (t : tuning) (assignments : list (option (string * Z)))
  : tab_lines_t :=
  map (fun entry =>
         (fst entry, map (fun a => column_symbol a (fst entry)) assignments))
      t.

(** The tab lines after a run of FretAssignments is appended. *)
Definition append_columns (tl : tab_lines_t)
    (assignments : list (option (string * Z))) : tab_lines_t :=
  map (fun kl =>
         (fst kl, snd kl ++ map (fun a => column_symbol a (fst kl)) assignments))
      tl.

(** The pipeline in the order of the specification: every frame is
    mapped to a FretAssignment, the assignments are decimated, the kept
    ones are rendered. *)
Definition assignments_map_then_decimate (t : tuning) (midi_notes : list float64)
  : result (list (option (string * Z))) :=
  assignments <- mapM (fret_assignment t) midi_notes ;;
  Ok (stride step assignments).

(** The order of the code: decimate the notes, then map the kept ones. *)
Definition assignments_decimate_then_map (t : tuning) (midi_notes : list float64)
  : result (list (option (string * Z))) :=
  mapM (fret_assignment t) (stride step midi_notes).

(** A symbol of the tablature: the placeholder or a fret within bounds. *)
Definition tab_symbol (sym : string) : Prop :=
  sym = "-" \/ exists fret, valid_fret fret /\ sym = str fret.

(** The text of a block of [n] silent columns. *)
Definition silent_block (n : nat) : string :=
  block_text (map (fun s => (s, repeat "-" n)) display_order).

(** The segment of string [name] in a block ([[]] when absent). *)
Definition segment_of (b : list (string * list string)) (name : string)
  : list string :=
  match dict_get b name with
  | Ok seg => seg
  | Raise _ => []
  end.

(** The block that starts at column [i] of the lines of a sequence of
    FretAssignments. *)
Definition block_at (assignments : list (option (string * Z))) (i : nat)
  : list (string * list string) :=
  map (fun name =>
         (name,
          slice (map (fun a => column_symbol a name) assignments)
                i (i + chunk_size)))
      display_order.

(** The layout in the words of the specification: the block texts in
    order, one blank line between two consecutive blocks. *)
Definition one_blank_line_layout (blocks : list (list (string * list string)))
  : string :=
  String.concat (newline ++ newline) (map block_text blocks).

(** A tuning declared from the highest open string to the lowest, as
    [guitar_tuning] is: no string is higher than one declared before it. *)
Fixpoint descending (t : tuning) : bool :=
  match t with
  | [] => true
  | entry :: t' =>
      forallb (fun e => (snd e <=? snd entry)%Z) t' && descending t'
  end.

(** ** Float64 views *)

(** The order of the float64 values that are not NaN. *)
Definition fle (a b : float64) : Prop :=
  match a with
  | NaN => False
  | Inf true => match b with NaN => False | _ => True end
  | Inf false => match b with Inf false => True | _ => False end
  | Fin x =>
      match b with
      | NaN => False
      | Inf negative => negative = false
      | Fin y => (x <= y)%R
      end
  end.

(** Zero, a positive number or plus infinity. *)
Definition fnonneg (a : float64) : Prop :=
  match a with
  | Fin x => (0 <= x)%R
  | Inf false => True
  | _ => False
  end.

(** A rounded operation with one float64 argument. *)
Definition lift (g : R -> R) (v : float64) : float64 :=
  match v with
  | Fin x => to_float64 (g x)
  | other => other
  end.

(** The float64 that follows 440.0. *)
Definition next_after_440 : R := (440 + bpow (-44))%R.

(** [midi_to_fret] on a finite note, with the subtraction
    [midi_note - string_tune] carried out as float64 does: the pitch is
    converted to float64 first (a Python int beyond the float64 range
    raises OverflowError) and the difference is rounded. *)
Definition midi_to_fret_float64 (midi_note : R) (string_tune : Z) : result Z :=
  match to_float64 (IZR string_tune) with
  | Fin tune =>
      fret <- py_int_round (to_float64 (midi_note - tune)) ;;
      if (0 <=? fret)%Z && (fret <=? MAX_FRET)%Z then Ok fret else Ok (-1)%Z
  | _ => Raise OverflowError
  end.

(** ** allowed_file

    A file name is a [string], one [ascii] per character. *)

Definition ALLOWED_EXTENSIONS : list string := ["mp3"; "wav"; "ogg"; "flac"].

(** [c in s] for a one-character [c] *)
Fixpoint contains (c : ascii) (s : string) : bool :=
  match s with
  | EmptyString => false
  | String d s' => Ascii.eqb d c || contains c s'
  end.

(** The cut of [s] at the last occurrence of [sep], if there is one. *)
Fixpoint rsplit1 (sep : ascii) (s : string) : option (string * string) :=
  match s with
  | EmptyString => None
  | String c s' =>
      match rsplit1 sep s' with
      | Some (a, b) => Some (String c a, b)
      | None => if Ascii.eqb c sep then Some (EmptyString, s') else None
      end
  end.

(** [s.rsplit(sep, 1)]: two parts when [sep] occurs, else [s] alone. *)
Definition py_rsplit1 (sep : ascii) (s : string) : list string :=
  match rsplit1 sep s with
  | Some (a, b) => [a; b]
  | None => [s]
  end.

(** [l[i]] for [i >= 0] *)
Definition list_index {A : Type} (l : list A) (i : nat) : result A :=
  match nth_error l i with
  | Some a => Ok a
  | None => Raise IndexError
  end.

(** [str.lower]: the letters A to Z become a to z. *)
Definition lower_ascii (c : ascii) : ascii :=
  let n := nat_of_ascii c in
  if (65 <=? n)%nat && (n <=? 90)%nat then ascii_of_nat (n + 32) else c.

Fixpoint lower (s : string) : string :=
  match s with
  | EmptyString => EmptyString
  | String c s' => String (lower_ascii c) (lower s')
  end.

(** [x in ALLOWED_EXTENSIONS] *)
Definition in_set (x : string) (set : list string) : bool :=
  existsb (String.eqb x) set.

Definition allowed_file (filename : string) : result bool :=
  if contains "." filename
  then
    ext <- list_index (py_rsplit1 "." filename) 1 ;;
    Ok (in_set (lower ext) ALLOWED_EXTENSIONS)
  else Ok false.

(** ** The /process route

    The request carries at most one upload under the key ['file'].
    Three calls of the route reach outside the program and can raise:
    [file.save], the analysis by [librosa.load] and [librosa.pyin], and
    [os.remove].  They are not modelled: the upload carries their
    outcome.  [file.save] is called before the [try] block, so its
    exception escapes the route; the two others are called inside it.

    The second component of the state, [fs], lists the paths at which
    the route has saved an upload that it has not removed since.  Paths
    are compared as the strings given to [file.save] and [os.remove]:
    two strings that name the same file are two entries, and [fs] says
    nothing of the other files of the directory. *)

Definition UPLOAD_FOLDER : string := "uploads".

Record file_storage : Type := {
  file_filename : string;
  (** [file.save(dst)]: [false] when it raises, as on a missing
      directory *)
  file_save : string -> bool;
  (** [f0] and [voiced_flag] of the saved file, [None] when
      [librosa.load] or [librosa.pyin] raises *)
  file_pitch : option (list float64 * list bool);
  (** [os.remove] of the saved file: [false] when it raises *)
  file_remove : bool
}.

Inductive response : Type :=
| Redirect
| ResultPage (tabs_text filename : string)
| ProcessingError
| BadFormat
| Uncaught (e : exn)
| SaveFailed.

(** [os.path.join(a, b)] on POSIX paths *)
Definition ends_with_slash (a : string) : bool :=
  match String.get (String.length a - 1) a with
  | Some c => Ascii.eqb c "/"
  | None => false
  end.

Definition path_join (a b : string) : string :=
  match b with
  | String "/" _ => b
  | _ =>
      if String.eqb a "" || ends_with_slash a
      then (a ++ b)%string
      else (a ++ "/" ++ b)%string
  end.

(** The bookkeeping of a successful [os.remove] and of a successful
    [file.save]. *)
Definition remove_file (path : string) (fs : list string) : list string :=
  filter (fun q => negb (String.eqb q path)) fs.

Definition save_file (path : string) (fs : list string) : list string :=
  path :: remove_file path fs.

(** [generate_tabs(filepath)] on the saved upload; [None] stands for any
    exception. *)
Definition analyse (file : file_storage) : option string :=
  match file_pitch file with
  | None => None
  | Some (f0, voiced_flag) =>
      match generate_tabs f0 voiced_flag with
      | Ok tabs_text => Some tabs_text
      | Raise _ => None
      end
  end.

(** [Uncaught e] is an exception of [allowed_file] and [SaveFailed] one
    of [file.save]: nothing catches them, and the server answers with
    status 500.  [ProcessingError] is the answer of the [except]
    clause. *)
Definition process (request_file : option file_storage) (fs : list string)
  : response * list string :=
  match request_file with
  | None => (Redirect, fs)
  | Some file =>
      if String.eqb (file_filename file) "" then (Redirect, fs)
      else
        match allowed_file (file_filename file) with
        | Raise e => (Uncaught e, fs)
        | Ok false => (BadFormat, fs)
        | Ok true =>
            let filename := file_filename file in
            let filepath := path_join UPLOAD_FOLDER filename in
            if file_save file filepath then
              let fs := save_file filepath fs in
              match analyse file with
              | Some tabs_text =>
                  if file_remove file
                  then (ResultPage tabs_text filename, remove_file filepath fs)
                  else (ProcessingError, fs)
              | None => (ProcessingError, fs)
              end
            else (SaveFailed, fs)
        end
  end.

(** *** Small runs *)

Example stride_ex : stride 5 (seq 0 12) = [0; 5; 10]%nat.
Proof. reflexivity. Qed.

Example py_range_ex : py_range 61 60 = [0; 60]%nat.
Proof. reflexivity. Qed.

Example render_silence_ex :
  generate_tabs [NaN; NaN; NaN; NaN; NaN; NaN] [false; false; false; false; false; false]
  = Ok ("e|--|" ++ newline ++ "B|--|" ++ newline ++ "G|--|" ++ newline
        ++ "D|--|" ++ newline ++ "A|--|" ++ newline ++ "E|--|"
        ++ newline ++ newline)%string.
Proof. reflexivity. Qed.

(** ** Rounding *)

Lemma round_half_even_IZR (z : Z) : round_half_even (IZR z) = z.
Proof.
  unfold round_half_even.
  assert (E : Int_part (IZR z) = z).
  { symmetry. apply Int_part_spec. lra. }
  rewrite E.
  destruct (Rlt_dec (IZR z - IZR z) (1 / 2)) as [_ | H]; [reflexivity | lra].
Qed.

Lemma round_half_even_near (x : R) :
  (Rabs (x - IZR (round_half_even x)) <= 1 / 2)%R.
Proof.
  unfold round_half_even.
  destruct (base_Int_part x) as [Hlo Hhi].
  set (n := Int_part x) in *.
  destruct (Rlt_dec (x - IZR n) (1 / 2)) as [H1 | H1].
  - apply Rabs_le. lra.
  - destruct (Rlt_dec (1 / 2) (x - IZR n)) as [H2 | H2].
    + rewrite plus_IZR. apply Rabs_le. lra.
    + destruct (Z.even n); [| rewrite plus_IZR]; apply Rabs_le; lra.
Qed.
Lemma round_half_even_bounds (y : R) :
  (IZR (round_half_even y) - 1 / 2 <= y <= IZR (round_half_even y) + 1 / 2)%R.
Proof.
  pose proof (round_half_even_near y) as H.
  unfold Rabs in H. destruct (Rcase_abs (y - IZR (round_half_even y))); lra.
Qed.

Lemma round_half_even_mono (y z : R) :
  (y <= z)%R -> (round_half_even y <= round_half_even z)%Z.
Proof.
  intros Hyz.
  destruct (Z.le_gt_cases (round_half_even y) (round_half_even z)) as [H | H];
    [assumption | exfalso].
  pose proof (round_half_even_bounds y) as By.
  pose proof (round_half_even_bounds z) as Bz.
  assert (Hr : (IZR (round_half_even z) + 1 <= IZR (round_half_even y))%R).
  { rewrite <- plus_IZR. apply IZR_le. lia. }
  assert (E : y = z) by lra.
  subst z. lia.
Qed.
Lemma round_half_even_lower (y : R) (k : Z) :
  (IZR k - 1 / 2 < y)%R -> (k <= round_half_even y)%Z.
Proof.
  intros H. pose proof (round_half_even_bounds y) as B.
  assert (Hlt : (IZR k - 1 < IZR (round_half_even y))%R) by lra.
  rewrite <- minus_IZR in Hlt. apply lt_IZR in Hlt. lia.
Qed.

Lemma round_half_even_upper (y : R) (k : Z) :
  (y < IZR k + 1 / 2)%R -> (round_half_even y <= k)%Z.
Proof.
  intros H. pose proof (round_half_even_bounds y) as B.
  assert (Hlt : (IZR (round_half_even y) < IZR k + 1)%R) by lra.
  rewrite <- plus_IZR in Hlt. apply lt_IZR in Hlt. lia.
Qed.
Lemma round_half_even_tie (k : Z) :
  round_half_even (IZR k + 1 / 2) = if Z.even k then k else (k + 1)%Z.
Proof.
  unfold round_half_even.
  assert (E : Int_part (IZR k + 1 / 2) = k).
  { symmetry. apply Int_part_spec. lra. }
  rewrite E.
  destruct (Rlt_dec (IZR k + 1 / 2 - IZR k) (1 / 2)) as [H | _]; [lra |].
  destruct (Rlt_dec (1 / 2) (IZR k + 1 / 2 - IZR k)) as [H | _]; [lra |].
  reflexivity.
Qed.


Lemma midi_to_fret_Fin (x : R) (p : Z) :
  midi_to_fret (Fin x) p =
  Ok (let fret := round_half_even (x - IZR p) in
      if (0 <=? fret)%Z && (fret <=? MAX_FRET)%Z then fret else (-1)%Z).
Proof.
  unfold midi_to_fret. simpl.
  destruct ((0 <=? _)%Z && (_ <=? MAX_FRET)%Z); reflexivity.
Qed.

Lemma midi_to_fret_int (n p : Z) :
  midi_to_fret (Fin (IZR n)) p =
  Ok (if (0 <=? n - p)%Z && (n - p <=? MAX_FRET)%Z then (n - p)%Z else (-1)%Z).
Proof.
  rewrite midi_to_fret_Fin, <- minus_IZR, round_half_even_IZR. reflexivity.
Qed.

(** ** Rounding to binary64 *)

Section Binary64.
Local Open Scope R_scope.

Lemma ln_2_pos : (0 < ln 2)%R.
Proof. rewrite <- ln_1. apply ln_increasing; lra. Qed.

Lemma round_half_even_inside (y : R) (k : Z) :
  IZR k - 1 / 2 < y < IZR k + 1 / 2 -> round_half_even y = k.
Proof.
  intros [Hlo Hhi].
  pose proof (round_half_even_lower y k Hlo).
  pose proof (round_half_even_upper y k Hhi). lia.
Qed.

Lemma round_half_even_opp (y : R) :
  round_half_even (- y) = (- round_half_even y)%Z.
Proof.
  pose proof (round_half_even_bounds y) as B.
  set (r := round_half_even y) in *.
  destruct (Rle_lt_or_eq_dec _ _ (proj1 B)) as [Hlo | Hlo].
  - destruct (Rle_lt_or_eq_dec _ _ (proj2 B)) as [Hhi | Hhi].
    + apply round_half_even_inside. rewrite opp_IZR. lra.
    + (* y = r + 1/2 : a tie, r is the even neighbour of r, r+1 *)
      assert (Hr : r = if Z.even r then r else (r + 1)%Z).
      { unfold r at 1. rewrite Hhi. apply round_half_even_tie. }
      assert (Ev : Z.even r = true).
      { destruct (Z.even r); [reflexivity | lia]. }
      replace (- y) with (IZR (- r - 1) + 1 / 2)
        by (rewrite minus_IZR, opp_IZR; lra).
      rewrite round_half_even_tie.
      replace (- r - 1)%Z with (- (r + 1))%Z by lia.
      rewrite Z.even_opp, Z.even_add, Ev. cbn. lia.
  - (* y = r - 1/2 *)
    assert (Hy : y = IZR (r - 1) + 1 / 2) by (rewrite minus_IZR; lra).
    assert (Hr : r = if Z.even (r - 1) then (r - 1)%Z else (r - 1 + 1)%Z).
    { unfold r at 1. rewrite Hy. apply round_half_even_tie. }
    assert (Ev : Z.even (r - 1) = false).
    { destruct (Z.even (r - 1)); [lia | reflexivity]. }
    replace (- y) with (IZR (- r) + 1 / 2) by (rewrite opp_IZR; lra).
    rewrite round_half_even_tie.
    rewrite Z.even_opp.
    replace r with (r - 1 + 1)%Z at 1 by lia.
    rewrite Z.even_add, Ev. cbn. reflexivity.
Qed.

Lemma bpow_pos (e : Z) : 0 < bpow e.
Proof. apply powerRZ_lt. lra. Qed.

Lemma bpow_add (a b : Z) : bpow (a + b) = bpow a * bpow b.
Proof. apply powerRZ_add. lra. Qed.

Lemma bpow_exp (e : Z) : bpow e = exp (IZR e * ln 2).
Proof. unfold bpow. rewrite powerRZ_Rpower by lra. reflexivity. Qed.

Lemma bpow_lt (a b : Z) : (a < b)%Z -> bpow a < bpow b.
Proof.
  intros H. rewrite !bpow_exp. apply exp_increasing.
  apply Rmult_lt_compat_r; [apply ln_2_pos | apply IZR_lt; assumption].
Qed.

Lemma bpow_le (a b : Z) : (a <= b)%Z -> bpow a <= bpow b.
Proof.
  intros H. destruct (Z.eq_dec a b) as [-> | Hne]; [lra |].
  left. apply bpow_lt. lia.
Qed.

Lemma bpow_lt_inv (a b : Z) : bpow a < bpow b -> (a < b)%Z.
Proof.
  intros H. destruct (Z.lt_ge_cases a b) as [Hlt | Hge]; [assumption |].
  pose proof (bpow_le b a Hge). lra.
Qed.

Lemma bpow_IZR (n : Z) : (0 <= n)%Z -> bpow n = IZR (2 ^ n).
Proof.
  intros H. unfold bpow.
  rewrite <- (Z2Nat.id n H) at 1. rewrite <- pow_powerRZ, pow_IZR, Z2Nat.id by assumption.
  reflexivity.
Qed.

Lemma bpow_succ (e : Z) : bpow (e + 1) = 2 * bpow e.
Proof. rewrite bpow_add. unfold bpow at 2. rewrite powerRZ_1. lra. Qed.

Lemma bpow_opp (e : Z) : bpow (- e) = / bpow e.
Proof. apply powerRZ_neg'. Qed.

Lemma log2_bpow (e : Z) : log2 (bpow e) = IZR e.
Proof.
  unfold log2. rewrite bpow_exp, ln_exp. field.
  pose proof ln_2_pos. lra.
Qed.

Lemma log2_le (x y : R) : 0 < x -> x <= y -> log2 x <= log2 y.
Proof.
  intros Hx [Hlt | ->]; [| lra].
  left. unfold log2, Rdiv. apply Rmult_lt_compat_r.
  - apply Rinv_0_lt_compat, ln_2_pos.
  - apply ln_increasing; assumption.
Qed.

Lemma log2_lt (x y : R) : 0 < x -> x < y -> log2 x < log2 y.
Proof.
  intros Hx Hlt. unfold log2, Rdiv. apply Rmult_lt_compat_r.
  - apply Rinv_0_lt_compat, ln_2_pos.
  - apply ln_increasing; assumption.
Qed.

Lemma mag_unique (x : R) (k : Z) :
  bpow k <= Rabs x < bpow (k + 1) -> mag x = k.
Proof.
  intros [Hlo Hhi]. unfold mag. symmetry. apply Int_part_spec.
  pose proof (bpow_pos k) as Hk.
  pose proof (log2_le _ _ Hk Hlo) as H1.
  assert (Hx : 0 < Rabs x) by lra.
  pose proof (log2_lt _ _ Hx Hhi) as H2.
  rewrite log2_bpow in H1, H2. rewrite plus_IZR in H2. lra.
Qed.

Lemma mag_bounds (x : R) :
  x <> 0 -> bpow (mag x) <= Rabs x < bpow (mag x + 1).
Proof.
  intros Hx. assert (Hpos : 0 < Rabs x) by (apply Rabs_pos_lt; assumption).
  unfold mag. destruct (base_Int_part (log2 (Rabs x))) as [Hlo Hhi].
  set (k := Int_part (log2 (Rabs x))) in *.
  pose proof ln_2_pos as H2.
  assert (E : Rabs x = exp (log2 (Rabs x) * ln 2)).
  { unfold log2. replace (ln (Rabs x) / ln 2 * ln 2) with (ln (Rabs x)) by (field; lra).
    symmetry. apply exp_ln. assumption. }
  rewrite !bpow_exp, plus_IZR, E. split.
  - destruct Hlo as [Hlo | Hlo].
    + left. apply exp_increasing. apply Rmult_lt_compat_r; assumption.
    + rewrite Hlo. lra.
  - apply exp_increasing. apply Rmult_lt_compat_r; [assumption | lra].
Qed.

Lemma mag_lt (x : R) (k : Z) : x <> 0 -> Rabs x < bpow k -> (mag x < k)%Z.
Proof.
  intros Hx H. destruct (mag_bounds x Hx) as [Hlo _].
  apply bpow_lt_inv. lra.
Qed.

Lemma mag_ge (x : R) (k : Z) : bpow k <= Rabs x -> (k <= mag x)%Z.
Proof.
  intros H. assert (Hx : x <> 0).
  { intros ->. rewrite Rabs_R0 in H. pose proof (bpow_pos k). lra. }
  destruct (mag_bounds x Hx) as [_ Hhi].
  assert (bpow k < bpow (mag x + 1)) by lra.
  apply bpow_lt_inv in H0. lia.
Qed.

Lemma mag_le (x y : R) : x <> 0 -> Rabs x <= Rabs y -> (mag x <= mag y)%Z.
Proof.
  intros Hx H. apply mag_ge. destruct (mag_bounds x Hx) as [Hlo _]. lra.
Qed.

Lemma mag_opp (x : R) : mag (- x) = mag x.
Proof. unfold mag. rewrite Rabs_Ropp. reflexivity. Qed.

Lemma ulp_exp_opp (x : R) : ulp_exp (- x) = ulp_exp x.
Proof. unfold ulp_exp. rewrite mag_opp. reflexivity. Qed.

Lemma ulp_exp_le (x y : R) :
  x <> 0 -> Rabs x <= Rabs y -> (ulp_exp x <= ulp_exp y)%Z.
Proof.
  intros Hx H. unfold ulp_exp. pose proof (mag_le x y Hx H). lia.
Qed.

Lemma round64_0 : round64 0 = 0.
Proof.
  unfold round64. replace (0 / bpow (ulp_exp 0)) with (IZR 0).
  - rewrite round_half_even_IZR. lra.
  - unfold Rdiv. lra.
Qed.

Lemma round64_opp (y : R) : round64 (- y) = - round64 y.
Proof.
  unfold round64. rewrite ulp_exp_opp.
  replace (- y / bpow (ulp_exp y)) with (- (y / bpow (ulp_exp y)))
    by (unfold Rdiv; lra).
  rewrite round_half_even_opp, opp_IZR. lra.
Qed.

Lemma round64_nonneg (y : R) : 0 <= y -> 0 <= round64 y.
Proof.
  intros Hy. unfold round64. pose proof (bpow_pos (ulp_exp y)) as Hb.
  apply Rmult_le_pos; [| lra].
  apply IZR_le. rewrite <- (round_half_even_IZR 0).
  apply round_half_even_mono. unfold Rdiv.
  apply Rmult_le_pos; [assumption |]. left. apply Rinv_0_lt_compat. assumption.
Qed.

Lemma round64_exact (m e : Z) :
  (Z.abs m < 2 ^ 53)%Z -> (-1074 <= e)%Z ->
  round64 (IZR m * bpow e) = IZR m * bpow e.
Proof.
  intros Hm He.
  destruct (Z.eq_dec m 0) as [-> | Hm0].
  { rewrite Rmult_0_l. apply round64_0. }
  set (y := IZR m * bpow e).
  pose proof (bpow_pos e) as Hbe.
  assert (Hy : y <> 0).
  { unfold y. apply Rmult_integral_contrapositive_currified; [| lra].
    apply not_0_IZR. assumption. }
  assert (Hmag : (mag y < 53 + e)%Z).
  { apply mag_lt; [assumption |].
    unfold y. rewrite Rabs_mult, (Rabs_pos_eq (bpow e)) by lra.
    rewrite bpow_add, (bpow_IZR 53) by lia.
    apply Rmult_lt_compat_r; [assumption |].
    rewrite <- abs_IZR. apply IZR_lt. assumption. }
  assert (Hle : (ulp_exp y <= e)%Z) by (unfold ulp_exp; lia).
  unfold round64.
  set (d := ulp_exp y) in *.
  pose proof (bpow_pos d) as Hbd.
  assert (E : y / bpow d = IZR (m * 2 ^ (e - d))).
  { unfold y. rewrite mult_IZR, <- bpow_IZR by lia.
    replace e with ((e - d) + d)%Z at 1 by lia.
    rewrite bpow_add. field. lra. }
  rewrite E, round_half_even_IZR, <- E. field. lra.
Qed.

Lemma round64_int (m : Z) : (Z.abs m < 2 ^ 53)%Z -> round64 (IZR m) = IZR m.
Proof.
  intros H. pose proof (round64_exact m 0 H ltac:(lia)) as E.
  unfold bpow in E. rewrite powerRZ_O, Rmult_1_r in E. exact E.
Qed.

Lemma round64_error (y : R) :
  Rabs (round64 y - y) <= bpow (ulp_exp y) / 2.
Proof.
  unfold round64. set (d := ulp_exp y). pose proof (bpow_pos d) as Hb.
  pose proof (round_half_even_bounds (y / bpow d)) as B.
  set (r := IZR (round_half_even (y / bpow d))) in *.
  assert (E : y = y / bpow d * bpow d) by (field; lra).
  apply Rabs_le. split.
  - assert (r * bpow d - y / bpow d * bpow d >= - (1 / 2) * bpow d) by nra. lra.
  - assert (r * bpow d - y / bpow d * bpow d <= 1 / 2 * bpow d) by nra. lra.
Qed.

Lemma round64_error_rel (y : R) :
  Rabs (round64 y - y) <= Rabs y * bpow (-53) + bpow (-1075).
Proof.
  pose proof (round64_error y) as H.
  pose proof (bpow_pos (-53)) as H53. pose proof (bpow_pos (-1075)) as H1075.
  destruct (Req_dec_T y 0) as [-> | Hy].
  { rewrite round64_0, Rminus_0_r, Rabs_R0. lra. }
  unfold ulp_exp in H.
  destruct (Z.max_spec (mag y - 52) (-1074)) as [[_ E] | [_ E]]; rewrite E in H.
  - replace (-1074)%Z with (-1075 + 1)%Z in H by lia.
    rewrite bpow_succ in H.
    pose proof (Rabs_pos y). nra.
  - destruct (mag_bounds y Hy) as [Hlo _].
    replace (mag y - 52)%Z with (mag y + -53 + 1)%Z in H by lia.
    rewrite bpow_succ, bpow_add in H.
    pose proof (bpow_pos (mag y)). nra.
Qed.

Lemma round64_error_normal (y : R) :
  bpow (-1022) <= Rabs y ->
  Rabs (round64 y - y) <= Rabs y * bpow (-53).
Proof.
  intros Hn. pose proof (round64_error y) as H.
  assert (Hy : y <> 0).
  { intros ->. rewrite Rabs_R0 in Hn. pose proof (bpow_pos (-1022)). lra. }
  pose proof (mag_ge y _ Hn) as Hm.
  unfold ulp_exp in H. rewrite Z.max_l in H by lia.
  destruct (mag_bounds y Hy) as [Hlo _].
  replace (mag y - 52)%Z with (mag y + -53 + 1)%Z in H by lia.
  rewrite bpow_succ, bpow_add in H.
  pose proof (bpow_pos (mag y)). pose proof (bpow_pos (-53)). nra.
Qed.

Lemma round64_mono_pos (x y : R) :
  0 < x -> x <= y -> round64 x <= round64 y.
Proof.
  intros Hx Hxy.
  assert (Hx0 : x <> 0) by lra.
  assert (Habs : Rabs x <= Rabs y) by (rewrite !Rabs_pos_eq by lra; assumption).
  pose proof (ulp_exp_le x y Hx0 Habs) as Hle.
  pose proof (bpow_pos (ulp_exp x)) as Hbx.
  pose proof (bpow_pos (ulp_exp y)) as Hby.
  destruct (Z.eq_dec (ulp_exp x) (ulp_exp y)) as [E | Hne].
  - unfold round64. rewrite <- E.
    apply Rmult_le_compat_r; [lra |]. apply IZR_le, round_half_even_mono.
    unfold Rdiv. apply Rmult_le_compat_r; [| assumption].
    left. apply Rinv_0_lt_compat. assumption.
  - assert (Hlt : (ulp_exp x < ulp_exp y)%Z) by lia.
    set (k := mag y).
    assert (Ey : ulp_exp y = (k - 52)%Z).
    { unfold ulp_exp in *. fold k. lia. }
    assert (Hmx : (mag x < k)%Z) by (unfold ulp_exp in *; fold k in Hlt; lia).
    assert (Hkx : (ulp_exp x <= k)%Z) by (unfold ulp_exp in *; lia).
    destruct (mag_bounds x Hx0) as [_ Hxhi].
    assert (Hy0 : y <> 0) by lra.
    destruct (mag_bounds y Hy0) as [Hylo _]. fold k in Hylo.
    rewrite Rabs_pos_eq in Hxhi, Hylo by lra.
    assert (Hxk : x <= bpow k).
    { pose proof (bpow_le (mag x + 1) k ltac:(lia)). lra. }
    apply Rle_trans with (bpow k).
    + unfold round64. set (d := ulp_exp x) in *.
      replace (bpow k) with (IZR (2 ^ (k - d)) * bpow d).
      * apply Rmult_le_compat_r; [lra |]. apply IZR_le.
        apply Z.le_trans with (round_half_even (IZR (2 ^ (k - d))));
          [| rewrite round_half_even_IZR; lia].
        apply round_half_even_mono.
        rewrite <- bpow_IZR by lia.
        replace (bpow (k - d)) with (bpow k / bpow d).
        -- unfold Rdiv. apply Rmult_le_compat_r; [| assumption].
           left. apply Rinv_0_lt_compat. assumption.
        -- replace k with ((k - d) + d)%Z at 1 by lia.
           rewrite bpow_add. field. lra.
      * rewrite <- bpow_IZR, <- bpow_add by lia. f_equal. lia.
    + unfold round64. rewrite Ey.
      replace (bpow k) with (IZR (2 ^ 52) * bpow (k - 52)) at 1.
      * apply Rmult_le_compat_r; [left; apply bpow_pos |]. apply IZR_le.
        apply Z.le_trans with (round_half_even (IZR (2 ^ 52)));
          [rewrite round_half_even_IZR; lia |].
        apply round_half_even_mono.
        rewrite <- bpow_IZR by lia.
        replace (bpow 52) with (bpow k / bpow (k - 52)).
        -- unfold Rdiv. apply Rmult_le_compat_r; [| assumption].
           left. apply Rinv_0_lt_compat, bpow_pos.
        -- replace k with (52 + (k - 52))%Z at 1 by lia.
           rewrite bpow_add. field. pose proof (bpow_pos (k - 52)). lra.
      * rewrite <- bpow_IZR, <- bpow_add by lia. f_equal. lia.
Qed.

Lemma round64_mono (x y : R) : x <= y -> round64 x <= round64 y.
Proof.
  intros Hxy.
  destruct (Rlt_le_dec 0 x) as [Hx | Hx].
  - apply round64_mono_pos; assumption.
  - destruct (Rlt_le_dec y 0) as [Hy | Hy].
    + assert (H : round64 (- y) <= round64 (- x))
        by (apply round64_mono_pos; lra).
      rewrite !round64_opp in H. lra.
    + pose proof (round64_nonneg y Hy).
      assert (H' : 0 <= round64 (- x)) by (apply round64_nonneg; lra).
      rewrite round64_opp in H'. lra.
Qed.


Lemma Rabs_le_elim (a c : R) : Rabs a <= c -> - c <= a <= c.
Proof. unfold Rabs. destruct (Rcase_abs a); lra. Qed.

Lemma to_float64_Fin (y : R) :
  Rabs (round64 y) < bpow 1024 -> to_float64 y = Fin (round64 y).
Proof.
  intros H. unfold to_float64.
  destruct (Rle_dec (bpow 1024) (Rabs (round64 y))) as [H' | _]; [lra | reflexivity].
Qed.

Lemma bpow_1024_big (n : Z) : (0 <= n <= 1023)%Z -> IZR (2 ^ n) < bpow 1024.
Proof.
  intros H. rewrite <- bpow_IZR by lia. apply bpow_lt. lia.
Qed.

Lemma to_float64_below (y : R) (n : Z) :
  (-1074 <= n <= 1023)%Z -> Rabs y <= bpow n ->
  to_float64 y = Fin (round64 y).
Proof.
  intros Hn Hy. apply to_float64_Fin.
  apply Rabs_le_elim in Hy.
  assert (E : round64 (bpow n) = bpow n).
  { pose proof (round64_exact 1 n ltac:(lia) ltac:(lia)) as E.
    rewrite Rmult_1_l in E. exact E. }
  pose proof (round64_mono y (bpow n) ltac:(lra)) as Hhi.
  pose proof (round64_mono (- bpow n) y ltac:(lra)) as Hlo.
  rewrite round64_opp in Hlo. rewrite E in Hhi, Hlo.
  pose proof (bpow_lt n 1024 ltac:(lia)).
  apply Rabs_def1; lra.
Qed.

Lemma to_float64_int (m : Z) :
  (Z.abs m < 2 ^ 53)%Z -> to_float64 (IZR m) = Fin (IZR m).
Proof.
  intros H. rewrite (to_float64_below (IZR m) 53); [| lia |].
  - rewrite round64_int by assumption. reflexivity.
  - rewrite bpow_IZR by lia. rewrite <- abs_IZR. apply IZR_le. lia.
Qed.

Lemma log2_1 : log2 1 = 0.
Proof. unfold log2. rewrite ln_1. unfold Rdiv. lra. Qed.

Lemma hz_to_midi1_440 : hz_to_midi1 (Fin 440) = Fin 69.
Proof.
  unfold hz_to_midi1, np_eq_zero.
  destruct (Req_dec_T 440 0) as [E | _]; [lra |].
  cbn [np_div_pos].
  replace (440 / 440) with (IZR 1) by (field).
  rewrite (to_float64_int 1) by (cbn; lia).
  cbn [np_log2].
  destruct (Rlt_dec 1 0) as [H | _]; [lra |].
  destruct (Req_dec_T 1 0) as [H | _]; [lra |].
  rewrite log2_1. rewrite (to_float64_int 0) by (cbn; lia).
  cbn [np_mul_pos]. replace (12 * 0) with (IZR 0) by lra.
  rewrite (to_float64_int 0) by (cbn; lia).
  cbn [np_add]. replace (0 + 69) with (IZR 69) by lra.
  rewrite (to_float64_int 69) by (cbn; lia). reflexivity.
Qed.

Lemma bpow_neg_IZR (n : Z) : (0 <= n)%Z -> bpow (- n) = / IZR (2 ^ n).
Proof. intros H. rewrite bpow_opp, bpow_IZR by assumption. reflexivity. Qed.

Lemma ln_1p_le (d : R) : 0 <= d -> ln (1 + d) <= d.
Proof.
  intros [Hd | <-]; [| rewrite Rplus_0_r, ln_1; lra].
  pose proof (exp_ineq1 d ltac:(lra)) as H.
  left. rewrite <- (ln_exp d) at 2. apply ln_increasing; lra.
Qed.

Lemma ln_1p_pos (d : R) : 0 < d -> 0 < ln (1 + d).
Proof. intros Hd. rewrite <- ln_1. apply ln_increasing; lra. Qed.


Lemma to_float64_cases (y : R) :
  (to_float64 y = Fin (round64 y) /\ Rabs (round64 y) < bpow 1024) \/
  (to_float64 y = Inf false /\ bpow 1024 <= round64 y) \/
  (to_float64 y = Inf true /\ round64 y <= - bpow 1024).
Proof.
  unfold to_float64. pose proof (bpow_pos 1024) as Hb.
  destruct (Rle_dec (bpow 1024) (Rabs (round64 y))) as [H | H].
  - right. unfold Rabs in H. destruct (Rcase_abs (round64 y)) as [Hn | Hp].
    + right. destruct (Rlt_dec (round64 y) 0); [| lra]. split; [reflexivity | lra].
    + left. destruct (Rlt_dec (round64 y) 0); [lra |]. split; [reflexivity | lra].
  - left. split; [reflexivity | lra].
Qed.

Lemma to_float64_mono (x y : R) : x <= y -> fle (to_float64 x) (to_float64 y).
Proof.
  intros H. pose proof (round64_mono x y H) as Hr.
  pose proof (bpow_pos 1024) as Hb.
  destruct (to_float64_cases x) as [[-> Hx] | [[-> Hx] | [-> Hx]]];
    destruct (to_float64_cases y) as [[-> Hy] | [[-> Hy] | [-> Hy]]];
    cbn; try exact I; try reflexivity; try assumption;
    try (apply Rabs_def2 in Hx); try (apply Rabs_def2 in Hy); try lra.
Qed.


Lemma to_float64_not_NaN (y : R) : to_float64 y <> NaN.
Proof.
  destruct (to_float64_cases y) as [[-> _] | [[-> _] | [-> _]]]; discriminate.
Qed.

Lemma fle_top (a : float64) : a <> NaN -> fle a (Inf false).
Proof. destruct a as [| [|] | x]; cbn; intros H; try congruence; auto. Qed.

Lemma fle_bot (a : float64) : a <> NaN -> fle (Inf true) a.
Proof. destruct a as [| [|] | x]; cbn; intros H; try congruence; auto. Qed.

Lemma lift_mono (g : R -> R) (a b : float64) :
  (forall x y, x <= y -> g x <= g y) ->
  fle a b -> fle (lift g a) (lift g b).
Proof.
  intros Hg. destruct a as [| [|] | x]; destruct b as [| [|] | y]; cbn;
    try tauto; try discriminate.
  - intros _. apply fle_bot, to_float64_not_NaN.
  - intros _. apply fle_top, to_float64_not_NaN.
  - intros H. apply to_float64_mono, Hg, H.
Qed.

Lemma np_log2_mono (x y : R) :
  0 <= x -> x <= y ->
  fle (np_log2 (Fin x)) (np_log2 (Fin y)).
Proof.
  intros Hx Hxy. cbn [np_log2].
  destruct (Rlt_dec x 0) as [H | _]; [lra |].
  destruct (Rlt_dec y 0) as [H | _]; [lra |].
  destruct (Req_dec_T x 0) as [Ex | Nx].
  - destruct (Req_dec_T y 0) as [Ey | Ny]; [exact I |].
    apply fle_bot, to_float64_not_NaN.
  - destruct (Req_dec_T y 0) as [Ey | Ny]; [lra |].
    apply to_float64_mono, log2_le; lra.
Qed.


Lemma next_after_440_is_float : round64 next_after_440 = next_after_440.
Proof.
  unfold next_after_440.
  replace (440 + bpow (-44)) with (IZR (440 * 2 ^ 44 + 1) * bpow (-44)).
  - apply round64_exact; cbn; lia.
  - rewrite (bpow_neg_IZR 44 ltac:(lia) : bpow (-44) = / 17592186044416).
    change (IZR (440 * 2 ^ 44 + 1)) with 7740561859543041. field.
Qed.

Lemma round64_at (y : R) (k e : Z) :
  bpow (e + 52) <= Rabs y < bpow (e + 53) -> (-1074 <= e)%Z ->
  IZR k - 1 / 2 < y / bpow e < IZR k + 1 / 2 ->
  round64 y = IZR k * bpow e.
Proof.
  intros Hmag He Hk.
  assert (Em : mag y = (e + 52)%Z).
  { apply mag_unique. replace (e + 52 + 1)%Z with (e + 53)%Z by lia. exact Hmag. }
  unfold round64, ulp_exp. rewrite Em.
  replace (Z.max (e + 52 - 52) (-1074)) with e by lia.
  rewrite (round_half_even_inside _ k Hk). reflexivity.
Qed.

Lemma hz_to_midi1_next_after_440 : hz_to_midi1 (Fin next_after_440) = Fin 69.
Proof.
  assert (B44 : bpow (-44) = / 17592186044416).
  { exact (bpow_neg_IZR 44 ltac:(lia)). }
  assert (B52 : bpow (-52) = / 4503599627370496).
  { exact (bpow_neg_IZR 52 ltac:(lia)). }
  assert (B51 : bpow (-51) = / 2251799813685248).
  { exact (bpow_neg_IZR 51 ltac:(lia)). }
  assert (B46 : bpow (-46) = / 70368744177664).
  { exact (bpow_neg_IZR 46 ltac:(lia)). }
  unfold hz_to_midi1, np_eq_zero, next_after_440.
  destruct (Req_dec_T (440 + bpow (-44)) 0) as [E | _]; [lra |].
  cbn [np_div_pos].
  (* the division rounds up to the float after 1 *)
  assert (Hq : round64 ((440 + bpow (-44)) / 440) = 1 + bpow (-52)).
  { rewrite (round64_at _ (2 ^ 52 + 1) (-52)).
    - rewrite B52. change (IZR (2 ^ 52 + 1)) with 4503599627370497. field.
    - change (-52 + 52)%Z with 0%Z. change (-52 + 53)%Z with 1%Z.
      rewrite (bpow_IZR 0), (bpow_IZR 1) by lia.
      change (IZR (2 ^ 0)) with 1. change (IZR (2 ^ 1)) with 2.
      rewrite Rabs_pos_eq; rewrite B44; lra.
    - lia.
    - rewrite B44, B52. change (IZR (2 ^ 52 + 1)) with 4503599627370497. lra. }
  rewrite (to_float64_below _ 1);
    [| lia | rewrite (bpow_IZR 1) by lia; change (IZR (2 ^ 1)) with 2;
             rewrite Rabs_pos_eq; rewrite B44; lra].
  rewrite Hq. cbn [np_log2].
  destruct (Rlt_dec (1 + bpow (-52)) 0) as [H | _]; [rewrite B52 in H; lra |].
  destruct (Req_dec_T (1 + bpow (-52)) 0) as [H | _]; [rewrite B52 in H; lra |].
  (* its logarithm is a tiny positive number *)
  set (L := log2 (1 + bpow (-52))).
  assert (HL : 0 <= L <= bpow (-51)).
  { unfold L, log2. pose proof ln_lt_2 as H2.
    pose proof (ln_1p_le (bpow (-52)) ltac:(rewrite B52; lra)) as Hle.
    pose proof (ln_1p_pos (bpow (-52)) ltac:(rewrite B52; lra)) as Hpos.
    rewrite B51. rewrite B52 in *.
    set (t := ln (1 + / 4503599627370496)) in *.
    split.
    - apply Rmult_le_pos; [lra |]. left. apply Rinv_0_lt_compat. lra.
    - apply Rmult_le_reg_r with (ln 2); [lra |].
      unfold Rdiv. rewrite Rmult_assoc, Rinv_l by lra. nra. }
  assert (E51 : round64 (bpow (-51)) = bpow (-51)).
  { pose proof (round64_exact 1 (-51) ltac:(cbn; lia) ltac:(lia)) as E.
    rewrite Rmult_1_l in E. exact E. }
  assert (Hl : 0 <= round64 L <= bpow (-51)).
  { split; [apply round64_nonneg; lra |].
    rewrite <- E51. apply round64_mono. lra. }
  rewrite (to_float64_below L (-51));
    [| lia | rewrite Rabs_pos_eq; lra].
  set (l := round64 L) in *.
  cbn [np_mul_pos].
  assert (E12 : round64 (12 * bpow (-51)) = 12 * bpow (-51)).
  { apply (round64_exact 12 (-51)); cbn; lia. }
  assert (Hm : 0 <= round64 (12 * l) <= 12 * bpow (-51)).
  { split; [apply round64_nonneg; lra |].
    rewrite <- E12. apply round64_mono. lra. }
  rewrite (to_float64_below (12 * l) 0);
    [| lia | rewrite (bpow_IZR 0) by lia; change (IZR (2 ^ 0)) with 1;
             rewrite Rabs_pos_eq; rewrite B51 in *; lra].
  set (m := round64 (12 * l)) in *.
  cbn [np_add].
  assert (Hs : round64 (m + 69) = 69).
  { rewrite (round64_at _ (69 * 2 ^ 46) (-46)).
    - rewrite B46. change (IZR (69 * 2 ^ 46)) with 4855443348258816. field.
    - change (-46 + 52)%Z with 6%Z. change (-46 + 53)%Z with 7%Z.
      rewrite !bpow_IZR by lia. change (IZR (2 ^ 6)) with 64.
      change (IZR (2 ^ 7)) with 128.
      rewrite Rabs_pos_eq; rewrite B51 in *; lra.
    - lia.
    - rewrite B46. change (IZR (69 * 2 ^ 46)) with 4855443348258816.
      rewrite B51 in *.
      replace ((m + 69) / / 70368744177664)
        with (m * 70368744177664 + 4855443348258816) by (field).
      lra. }
  rewrite (to_float64_below (m + 69) 7);
    [| lia | rewrite bpow_IZR by lia; change (IZR (2 ^ 7)) with 128;
             rewrite Rabs_pos_eq; rewrite B51 in *; lra].
  rewrite Hs. reflexivity.
Qed.


Lemma to_float64_nonneg (y : R) : 0 <= y -> fnonneg (to_float64 y).
Proof.
  intros H. pose proof (round64_nonneg y H) as Hr. pose proof (bpow_pos 1024).
  destruct (to_float64_cases y) as [[-> _] | [[-> _] | [-> Hy]]]; cbn;
    [assumption | exact I | lra].
Qed.

Lemma np_log2_not_NaN (a : float64) : fnonneg a -> np_log2 a <> NaN.
Proof.
  destruct a as [| [|] | x]; cbn; try tauto; [discriminate |].
  intros Hx. destruct (Rlt_dec x 0) as [H | _]; [lra |].
  destruct (Req_dec_T x 0); [discriminate | apply to_float64_not_NaN].
Qed.

Lemma np_log2_mono_f (a b : float64) :
  fnonneg a -> fle a b -> fle (np_log2 a) (np_log2 b).
Proof.
  destruct a as [| [|] | x]; cbn [fnonneg]; try tauto.
  - destruct b as [| [|] | y]; cbn; tauto.
  - intros Hx. destruct b as [| [|] | y]; cbn [fle]; try tauto.
    + discriminate.
    + intros _. change (np_log2 (Inf false)) with (Inf false).
      apply fle_top, (np_log2_not_NaN (Fin x)). exact Hx.
    + intros Hxy. apply np_log2_mono; assumption.
Qed.

Lemma hz_to_midi1_nonzero (x : R) :
  x <> 0 ->
  hz_to_midi1 (Fin x)
  = np_add (np_mul_pos 12 (np_log2 (to_float64 (x / 440)))) 69.
Proof.
  intros Hx. unfold hz_to_midi1, np_eq_zero.
  destruct (Req_dec_T x 0) as [E | _]; [contradiction | reflexivity].
Qed.

(** With [np.log2] correctly rounded every operation of [hz_to_midi] is
    non-decreasing, and so is their composition. *)
Lemma hz_to_midi1_mono (f1 f2 : R) :
  0 < f1 -> f1 <= f2 -> fle (hz_to_midi1 (Fin f1)) (hz_to_midi1 (Fin f2)).
Proof.
  intros H1 H12. rewrite !hz_to_midi1_nonzero by lra.
  apply (lift_mono (fun y => y + 69)); [intros; lra |].
  apply (lift_mono (fun y => 12 * y)); [intros; lra |].
  apply np_log2_mono_f.
  - apply to_float64_nonneg. apply Rmult_le_pos; lra.
  - apply to_float64_mono. lra.
Qed.

Lemma round64_tiny (y : R) : Rabs y < bpow (-1075) -> round64 y = 0.
Proof.
  intros Hy.
  destruct (Req_dec_T y 0) as [-> | Hy0]; [apply round64_0 |].
  pose proof (mag_lt y _ Hy0 Hy) as Hm.
  unfold round64, ulp_exp. rewrite Z.max_r by lia.
  pose proof (bpow_pos (-1074)) as Hb.
  assert (E : bpow (-1074) = 2 * bpow (-1075)).
  { rewrite <- bpow_succ. reflexivity. }
  rewrite (round_half_even_inside _ 0); [lra |].
  apply Rabs_def2 in Hy.
  assert (Hd : y / bpow (-1074) * bpow (-1074) = y) by (field; lra).
  split.
  - apply Rmult_lt_reg_r with (bpow (-1074)); [assumption |]. rewrite Hd. lra.
  - apply Rmult_lt_reg_r with (bpow (-1074)); [assumption |]. rewrite Hd. lra.
Qed.

Lemma to_float64_0 : to_float64 0 = Fin 0.
Proof. apply (to_float64_int 0). cbn. lia. Qed.

Lemma hz_to_midi1_underflow (x : R) :
  x <> 0 -> Rabs (x / 440) < bpow (-1075) ->
  hz_to_midi1 (Fin x) = Inf true.
Proof.
  intros Hx Hy. rewrite hz_to_midi1_nonzero by assumption.
  rewrite to_float64_Fin; rewrite (round64_tiny _ Hy).
  - cbn [np_log2]. destruct (Rlt_dec 0 0) as [H | _]; [lra |].
    destruct (Req_dec_T 0 0) as [_ | H]; [reflexivity | contradiction].
  - rewrite Rabs_R0. apply bpow_pos.
Qed.

Lemma hz_to_midi1_negative (x : R) :
  x / 440 <= - bpow (-1074) -> hz_to_midi1 (Fin x) = NaN.
Proof.
  intros Hy. pose proof (bpow_pos (-1074)) as Hb.
  rewrite hz_to_midi1_nonzero by (intros ->; unfold Rdiv in Hy; lra).
  assert (Hr : round64 (x / 440) <= - bpow (-1074)).
  { pose proof (round64_mono _ _ Hy) as H. rewrite round64_opp in H.
    pose proof (round64_exact 1 (-1074) ltac:(cbn; lia) ltac:(lia)) as E.
    rewrite Rmult_1_l in E. rewrite E in H. exact H. }
  pose proof (bpow_pos 1024).
  destruct (to_float64_cases (x / 440)) as [[-> _] | [[-> H'] | [-> _]]];
    [| lra | reflexivity].
  cbn [np_log2]. destruct (Rlt_dec (round64 (x / 440)) 0) as [_ | H']; [reflexivity | lra].
Qed.

Lemma log2_mult (a b : R) : 0 < a -> 0 < b -> log2 (a * b) = log2 a + log2 b.
Proof.
  intros Ha Hb. unfold log2. rewrite ln_mult by assumption.
  field. pose proof ln_2_pos. lra.
Qed.

Lemma ln_1p_bound (d : R) : Rabs d <= 1 / 2 -> Rabs (ln (1 + d)) <= 2 * Rabs d.
Proof.
  intros Hd. apply Rabs_le_elim in Hd.
  destruct (Rle_lt_dec 0 d) as [Hpos | Hneg].
  - pose proof (ln_1p_le d Hpos) as Hle.
    assert (0 <= ln (1 + d)).
    { rewrite <- ln_1. destruct Hpos as [Hpos | <-].
      - left. apply ln_increasing; lra.
      - rewrite Rplus_0_r. lra. }
    rewrite !Rabs_pos_eq by lra. lra.
  - set (e := - d / (1 + d)).
    assert (He : 0 <= e).
    { unfold e, Rdiv. apply Rmult_le_pos; [lra |].
      left. apply Rinv_0_lt_compat. lra. }
    assert (E : / (1 + d) = 1 + e) by (unfold e; field; lra).
    pose proof (ln_1p_le e He) as Hle.
    rewrite <- E, ln_Rinv in Hle by lra.
    assert (He2 : e <= - 2 * d).
    { unfold e, Rdiv. apply Rmult_le_reg_r with (1 + d); [lra |].
      rewrite Rmult_assoc, Rinv_l by lra. nra. }
    assert (Hln : ln (1 + d) <= 0).
    { rewrite <- ln_1. left. apply ln_increasing; lra. }
    rewrite (Rabs_left1 (ln (1 + d))) by assumption.
    rewrite (Rabs_left d) by assumption. lra.
Qed.

Lemma log2_1p_bound (d : R) :
  Rabs d <= 1 / 2 -> Rabs (log2 (1 + d)) <= 4 * Rabs d.
Proof.
  intros Hd. pose proof (ln_1p_bound d Hd) as H.
  pose proof ln_lt_2 as H2. pose proof (Rabs_pos d) as Hp.
  unfold log2, Rdiv. rewrite Rabs_mult.
  rewrite (Rabs_pos_eq (/ ln 2)) by (left; apply Rinv_0_lt_compat; lra).
  apply Rmult_le_reg_r with (ln 2); [lra |].
  rewrite Rmult_assoc, Rinv_l, Rmult_1_r by lra.
  pose proof (Rabs_pos (ln (1 + d))). nra.
Qed.

Lemma hz_to_midi1_accuracy (x : R) :
  bpow (-1000) <= x <= bpow 1000 ->
  exists s,
    hz_to_midi1 (Fin x) = Fin s /\
    Rabs (s - (12 * log2 (x / 440) + 69)) <= bpow (-37).
Proof.
  intros [Hlo Hhi].
  assert (B53 : bpow (-53) = / 9007199254740992)
    by exact (bpow_neg_IZR 53 ltac:(lia)).
  assert (B37 : bpow (-37) = / 137438953472)
    by exact (bpow_neg_IZR 37 ltac:(lia)).
  pose proof (bpow_pos (-1075)) as Ht.
  assert (Htu : bpow (-1075) <= bpow (-53)) by (apply bpow_le; lia).
  set (t := bpow (-1075)) in *.
  pose proof (bpow_pos (-1009)) as Hp1009.
  assert (E1000 : bpow (-1000) = 512 * bpow (-1009)).
  { replace (-1000)%Z with (9 + -1009)%Z by lia.
    rewrite bpow_add, (bpow_IZR 9) by lia. reflexivity. }
  set (qr := x / 440).
  assert (Hqr : bpow (-1009) <= qr <= bpow 1000).
  { unfold qr. pose proof (bpow_pos 1000). split; lra. }
  assert (Hqr0 : 0 < qr) by lra.
  assert (Hx0 : x <> 0) by (unfold qr in Hqr0; lra).
  set (A := log2 qr).
  assert (HA : -1009 <= A <= 1000).
  { unfold A. split.
    - rewrite <- (log2_bpow (-1009)). apply log2_le; lra.
    - rewrite <- (log2_bpow 1000). apply log2_le; lra. }
  (* the division *)
  set (q := round64 qr).
  assert (Hq : Rabs (q - qr) <= qr * bpow (-53)).
  { unfold q.
    assert (Hn : bpow (-1022) <= Rabs qr).
    { rewrite Rabs_pos_eq by lra.
      pose proof (bpow_le (-1022) (-1009) ltac:(lia)). lra. }
    pose proof (round64_error_normal qr Hn) as H.
    rewrite (Rabs_pos_eq qr) in H by lra. exact H. }
  rewrite B53 in Hq, Htu. apply Rabs_le_elim in Hq.
  assert (Hq0 : 0 < q) by nra.
  rewrite hz_to_midi1_nonzero by assumption. fold qr.
  rewrite (to_float64_below qr 1000); [| lia | rewrite Rabs_pos_eq; lra].
  fold q. cbn [np_log2].
  destruct (Rlt_dec q 0) as [H | _]; [lra |].
  destruct (Req_dec_T q 0) as [H | _]; [lra |].
  (* the logarithm *)
  set (d := q / qr - 1).
  assert (Hd : Rabs d <= / 9007199254740992).
  { apply Rabs_le. unfold d. split.
    - apply Rmult_le_reg_r with qr; [assumption |].
      replace ((q / qr - 1) * qr) with (q - qr) by (field; lra). lra.
    - apply Rmult_le_reg_r with qr; [assumption |].
      replace ((q / qr - 1) * qr) with (q - qr) by (field; lra). lra. }
  assert (Eq : q = qr * (1 + d)) by (unfold d; field; lra).
  assert (H1d : 0 < 1 + d) by (apply Rabs_le_elim in Hd; lra).
  set (L := log2 q).
  assert (HL : Rabs (L - A) <= 4 * / 9007199254740992).
  { unfold L, A. rewrite Eq, log2_mult by assumption.
    replace (log2 qr + log2 (1 + d) - log2 qr) with (log2 (1 + d)) by ring.
    pose proof (log2_1p_bound d ltac:(lra)). lra. }
  apply Rabs_le_elim in HL.
  assert (HLabs : Rabs L <= 1010) by (apply Rabs_le; lra).
  set (l := round64 L).
  pose proof (round64_error_rel L) as Hl. fold l t in Hl. rewrite B53 in Hl.
  apply Rabs_le_elim in Hl.
  rewrite (to_float64_below L 10);
    [| lia | rewrite bpow_IZR by lia; change (IZR (2 ^ 10)) with 1024; lra].
  fold l. cbn [np_mul_pos].
  (* the product *)
  assert (Hlabs : Rabs l <= 1011) by (apply Rabs_le; lra).
  assert (HMabs : Rabs (12 * l) <= 12132).
  { rewrite Rabs_mult, (Rabs_pos_eq 12) by lra. lra. }
  set (m := round64 (12 * l)).
  pose proof (round64_error_rel (12 * l)) as Hm. fold m t in Hm. rewrite B53 in Hm.
  apply Rabs_le_elim in Hm.
  rewrite (to_float64_below (12 * l) 14);
    [| lia | rewrite bpow_IZR by lia; change (IZR (2 ^ 14)) with 16384; lra].
  fold m. cbn [np_add].
  (* the sum *)
  assert (Hmabs : Rabs m <= 12133) by (apply Rabs_le; lra).
  assert (HSabs : Rabs (m + 69) <= 12202).
  { apply Rabs_le_elim in Hmabs. apply Rabs_le. lra. }
  set (s := round64 (m + 69)).
  pose proof (round64_error_rel (m + 69)) as Hs. fold s t in Hs. rewrite B53 in Hs.
  apply Rabs_le_elim in Hs.
  rewrite (to_float64_below (m + 69) 14);
    [| lia | rewrite bpow_IZR by lia; change (IZR (2 ^ 14)) with 16384; lra].
  fold s. exists s. split; [reflexivity |].
  fold A. rewrite B37. apply Rabs_le. lra.
Qed.

(** A float64 of magnitude at least [2^e] is a multiple of [2^(e - 52)]. *)
Lemma float64_grid (x : R) (e : Z) :
  round64 x = x -> (-1022 <= e)%Z -> bpow e <= Rabs x ->
  exists m, x = IZR m * bpow (e - 52).
Proof.
  intros Hx He Hlo.
  pose proof (mag_ge x e Hlo) as Hmag.
  set (d := ulp_exp x).
  assert (Hd : (e - 52 <= d)%Z) by (unfold d, ulp_exp; lia).
  exists (round_half_even (x / bpow d) * 2 ^ (d - (e - 52)))%Z.
  rewrite mult_IZR, <- bpow_IZR by lia.
  rewrite Rmult_assoc, <- bpow_add.
  replace (d - (e - 52) + (e - 52))%Z with d by lia.
  symmetry. exact Hx.
Qed.

Lemma grid_exact (m e : Z) (y : R) :
  y = IZR m * bpow e -> (-1074 <= e)%Z -> Rabs y < bpow (e + 53) ->
  round64 y = y.
Proof.
  intros -> He Hy. apply round64_exact; [| assumption].
  pose proof (bpow_pos e) as Hb.
  rewrite Rabs_mult, (Rabs_pos_eq (bpow e)) in Hy by lra.
  replace (e + 53)%Z with (53 + e)%Z in Hy by lia.
  rewrite bpow_add, (bpow_IZR 53) in Hy by lia.
  apply Rmult_lt_reg_r in Hy; [| assumption].
  rewrite <- abs_IZR in Hy. apply lt_IZR in Hy. exact Hy.
Qed.

Lemma int_within_float_range (m : Z) :
  (Z.abs m < 2 ^ 53)%Z -> Rabs (IZR m) <= bpow 1000.
Proof.
  intros H. pose proof (bpow_le 53 1000 ltac:(lia)) as H53.
  rewrite (bpow_IZR 53) in H53 by lia.
  rewrite <- abs_IZR.
  assert (IZR (Z.abs m) <= IZR (2 ^ 53)) by (apply IZR_le; lia). lra.
Qed.

(** The exact subtraction of [np_sub_int] against the rounded one: for
    a float64 note and an open-string pitch from 17 up to 2^53 both give
    the same result.  Either the note is at least a semitone below the
    string or 32 semitones above it, and both differences are out of the
    fret range, or the difference of the two float64 values is itself a
    float64. *)
Lemma midi_to_fret_float64_agrees (x : R) (p : Z) :
  round64 x = x -> Rabs x <= bpow 1000 -> (17 <= p < 2 ^ 53)%Z ->
  midi_to_fret_float64 x p = midi_to_fret (Fin x) p.
Proof.
  intros Hx Hbig Hp.
  unfold midi_to_fret_float64.
  rewrite to_float64_int by lia.
  set (y := x - IZR p).
  assert (Hp17 : 17 <= IZR p) by (apply IZR_le; lia).
  assert (Hp53 : IZR p < bpow 53).
  { rewrite bpow_IZR by lia. apply IZR_lt. lia. }
  assert (Hy : to_float64 y = Fin (round64 y)).
  { apply (to_float64_below y 1001); [lia |].
    apply Rabs_le_elim in Hbig.
    pose proof (bpow_le 53 1000 ltac:(lia)) as H53.
    pose proof (bpow_succ 1000) as E. change (1000 + 1)%Z with 1001%Z in E.
    pose proof (bpow_pos 1000).
    unfold y. apply Rabs_le. lra. }
  rewrite Hy, midi_to_fret_Fin. cbn [py_int_round bind]. fold y.
  assert (Hinvalid : forall a b : Z, ((a <= -1 /\ b <= -1) \/ (25 <= a /\ 25 <= b))%Z ->
            (if (0 <=? a)%Z && (a <=? MAX_FRET)%Z then Ok a else Ok (-1)%Z)
            = Ok (if (0 <=? b)%Z && (b <=? MAX_FRET)%Z then b else (-1)%Z)).
  { intros a b H. unfold MAX_FRET.
    destruct (Z.leb_spec 0 a), (Z.leb_spec a 24), (Z.leb_spec 0 b), (Z.leb_spec b 24);
      cbn; try reflexivity; lia. }
  destruct (Rle_dec y (-1)) as [Hneg | Hneg].
  { (* the note is a semitone or more below the open string *)
    apply Hinvalid. left.
    pose proof (round64_mono y (-1) Hneg) as Hr.
    rewrite round64_int in Hr by (cbn; lia).
    pose proof (round_half_even_mono _ _ Hr) as H1.
    pose proof (round_half_even_mono _ _ Hneg) as H2.
    rewrite round_half_even_IZR in H1, H2. lia. }
  destruct (Rle_dec 32 y) as [Hhigh | Hhigh].
  { apply Hinvalid. right.
    pose proof (round64_mono 32 y Hhigh) as Hr.
    rewrite round64_int in Hr by (cbn; lia).
    pose proof (round_half_even_mono _ _ Hr) as H1.
    pose proof (round_half_even_mono _ _ Hhigh) as H2.
    rewrite round_half_even_IZR in H1, H2. lia. }
  (* otherwise the difference is a float64 and the subtraction is exact *)
  assert (E : round64 y = y).
  { assert (H16 : bpow 4 <= Rabs x).
    { rewrite (bpow_IZR 4) by lia. change (IZR (2 ^ 4)) with 16.
      rewrite Rabs_pos_eq; unfold y in *; lra. }
    destruct (float64_grid x 4 Hx ltac:(lia) H16) as [m Hm].
    change (4 - 52)%Z with (-48)%Z in Hm.
    apply (grid_exact (m - p * 2 ^ 48) (-48)); [| lia |].
    - unfold y. rewrite minus_IZR, mult_IZR, <- (bpow_IZR 48) by lia.
      rewrite Hm. rewrite Rmult_minus_distr_r, Rmult_assoc, <- bpow_add.
      change (48 + -48)%Z with 0%Z. unfold bpow at 3. rewrite powerRZ_O. lra.
    - change (-48 + 53)%Z with 5%Z. rewrite (bpow_IZR 5) by lia.
      change (IZR (2 ^ 5)) with 32. apply Rabs_def1; lra. }
  rewrite E.
  destruct ((0 <=? round_half_even y)%Z && (round_half_even y <=? MAX_FRET)%Z);
    reflexivity.
Qed.

End Binary64.

(** ** The Pitch Normalizer *)

Lemma hz_to_midi1_NaN : hz_to_midi1 NaN = NaN.
Proof. reflexivity. Qed.

Lemma hz_to_midi1_zero : hz_to_midi1 (Fin 0) = NaN.
Proof.
  unfold hz_to_midi1, np_eq_zero.
  destruct (Req_dec_T 0 0) as [_ | H]; [reflexivity | contradiction].
Qed.

Lemma mask_unvoiced_length f0 voiced_flag masked :
  mask_unvoiced f0 voiced_flag = Ok masked ->
  List.length f0 = List.length voiced_flag /\
  List.length masked = List.length f0.
Proof.
  unfold mask_unvoiced.
  destruct (Nat.eqb_spec (List.length f0) (List.length voiced_flag)) as [E | N];
    [| discriminate].
  intros H. injection H as <-.
  split; [assumption |].
  rewrite length_map, length_combine. lia.
Qed.

Lemma mask_unvoiced_nth f0 voiced_flag masked i f v :
  mask_unvoiced f0 voiced_flag = Ok masked ->
  nth_error f0 i = Some f ->
  nth_error voiced_flag i = Some v ->
  nth_error masked i = Some (if v then f else NaN).
Proof.
  unfold mask_unvoiced.
  destruct (List.length f0 =? List.length voiced_flag)%nat; [| discriminate].
  intros H. injection H as <-.
  revert voiced_flag i.
  induction f0 as [| a f0 IH]; intros [| b vs] [| i] Hf Hv;
    simpl in *; try discriminate.
  - injection Hf as ->. injection Hv as ->. reflexivity.
  - apply IH; assumption.
Qed.

Lemma next_after_440_above : (440 < next_after_440)%R.
Proof. unfold next_after_440. pose proof (bpow_pos (-44)). lra. Qed.

Lemma log2_pos (y : R) : (1 < y)%R -> (0 < log2 y)%R.
Proof. intros H. rewrite <- log2_1. apply log2_lt; lra. Qed.

(** The claim C3 fails on the code.  On the float64 that follows 440.0
    the normalizer returns 69, not 12 * log2 (f / 440) + 69, which is
    larger; on the smallest positive float64, 2^-1074, the quotient
    f / 440.0 rounds to zero and the result is minus infinity. *)
Lemma pitch_normalizer_not_exact :
  exists midi_notes,
    midi_notes_of [Fin next_after_440; Fin (bpow (-1074))] [true; true]
    = Ok midi_notes /\
    round64 next_after_440 = next_after_440 /\
    (0 < next_after_440)%R /\
    nth_error midi_notes 0 = Some (Fin 69) /\
    nth_error midi_notes 0
    <> Some (Fin (12 * log2 (next_after_440 / 440) + 69)) /\
    round64 (bpow (-1074)) = bpow (-1074) /\
    (0 < bpow (-1074))%R /\
    nth_error midi_notes 1 = Some (Inf true).
Proof.
  exists [Fin 69; Inf true].
  pose proof next_after_440_above as Habove.
  pose proof (bpow_pos (-1074)) as Hmin.
  split.
  { unfold midi_notes_of, mask_unvoiced, hz_to_midi.
    cbn -[hz_to_midi1 bpow]. rewrite hz_to_midi1_next_after_440.
    rewrite hz_to_midi1_underflow; [reflexivity | lra |].
    rewrite Rabs_pos_eq by (unfold Rdiv; nra).
    replace (-1074)%Z with (-1075 + 1)%Z by lia. rewrite bpow_succ.
    pose proof (bpow_pos (-1075)). lra. }
  split; [apply next_after_440_is_float |].
  split; [lra |].
  split; [reflexivity |].
  split.
  { intros H. injection H as H.
    assert (Hl : (0 < log2 (next_after_440 / 440))%R) by (apply log2_pos; lra).
    lra. }
  split.
  { pose proof (round64_exact 1 (-1074) ltac:(cbn; lia) ltac:(lia)) as E.
    rewrite Rmult_1_l in E. exact E. }
  split; [assumption | reflexivity].
Qed.

(** C3 (amended). For every index the Pitch Normalizer returns NaN when
    the frame is unvoiced, when its frequency is zero, and when it is
    negative and at most -440 * 2^-1074; for a voiced frequency between
    2^-1000 and 2^1000 it returns the float64 evaluation of
    12 * log2 (f / 440) + 69, a finite value within 2^-37 of the exact
    one; a voiced frame at 440 Hz gives exactly 69.  On sequences of
    equal length it returns a sequence of that length. *)
Theorem pitch_normalizer_spec (f0 : list float64) (voiced_flag : list bool) :
  List.length f0 = List.length voiced_flag ->
  exists midi_notes,
    midi_notes_of f0 voiced_flag = Ok midi_notes /\
    List.length midi_notes = List.length f0 /\
    forall i f v,
      nth_error f0 i = Some f ->
      nth_error voiced_flag i = Some v ->
      (v = false -> nth_error midi_notes i = Some NaN) /\
      (f = Fin 0 -> nth_error midi_notes i = Some NaN) /\
      (forall x, f = Fin x -> (x / 440 <= - bpow (-1074))%R ->
                 nth_error midi_notes i = Some NaN) /\
      (forall x, v = true -> f = Fin x ->
                 (bpow (-1000) <= x <= bpow 1000)%R ->
                 exists s,
                   nth_error midi_notes i = Some (Fin s) /\
                   (Rabs (s - (12 * log2 (x / 440) + 69)) <= bpow (-37))%R) /\
      (v = true -> f = Fin 440 -> nth_error midi_notes i = Some (Fin 69)).
Proof.
  intros Hlen.
  destruct (mask_unvoiced f0 voiced_flag) as [masked | e] eqn:Hmask.
  2:{ unfold mask_unvoiced in Hmask. rewrite Hlen, Nat.eqb_refl in Hmask.
      discriminate. }
  exists (hz_to_midi masked).
  unfold midi_notes_of. rewrite Hmask. simpl.
  split; [reflexivity |].
  destruct (mask_unvoiced_length _ _ _ Hmask) as [_ Hl].
  split; [unfold hz_to_midi; rewrite length_map; exact Hl |].
  intros i f v Hf Hv.
  pose proof (mask_unvoiced_nth _ _ _ i _ _ Hmask Hf Hv) as Hm.
  unfold hz_to_midi. rewrite nth_error_map, Hm. cbn [option_map].
  split; [intros ->; reflexivity |].
  split.
  { intros ->. destruct v; [rewrite hz_to_midi1_zero |]; reflexivity. }
  split.
  { intros x -> Hx.
    destruct v; [rewrite hz_to_midi1_negative by assumption |]; reflexivity. }
  split.
  { intros x -> -> Hx.
    destruct (hz_to_midi1_accuracy x Hx) as (s & -> & Hs).
    exists s. split; [reflexivity | exact Hs]. }
  intros -> ->. rewrite hz_to_midi1_440. reflexivity.
Qed.

Lemma pitch_normalizer_spec_witness :
  exists midi_notes,
    midi_notes_of [Fin 440; Fin 0; NaN] [true; true; false] = Ok midi_notes /\
    nth_error midi_notes 0 = Some (Fin 69) /\
    nth_error midi_notes 1 = Some NaN /\
    nth_error midi_notes 2 = Some NaN.
Proof.
  destruct (pitch_normalizer_spec [Fin 440; Fin 0; NaN] [true; true; false]
              eq_refl) as (notes & Hrun & _ & Hnth).
  exists notes. split; [exact Hrun |].
  split; [| split].
  - destruct (Hnth 0%nat (Fin 440) true eq_refl eq_refl) as (_ & _ & _ & _ & H).
    apply H; reflexivity.
  - destruct (Hnth 1%nat (Fin 0) true eq_refl eq_refl) as (_ & H & _).
    apply H. reflexivity.
  - destruct (Hnth 2%nat NaN false eq_refl eq_refl) as (H & _).
    apply H. reflexivity.
Defined.

(** The claim C9 fails on the code: 440.0 and the float64 that follows
    it are both sent to 69. *)
Lemma hz_to_midi_not_strictly_increasing :
  ~ (forall f1 f2 : R,
        (0 < f1)%R -> (f1 < f2)%R ->
        exists s1 s2,
          hz_to_midi1 (Fin f1) = Fin s1 /\
          hz_to_midi1 (Fin f2) = Fin s2 /\
          (s1 < s2)%R).
Proof.
  intros H.
  destruct (H 440%R next_after_440 ltac:(lra) next_after_440_above)
    as (s1 & s2 & E1 & E2 & Hlt).
  rewrite hz_to_midi1_440 in E1. rewrite hz_to_midi1_next_after_440 in E2.
  injection E1 as <-. injection E2 as <-. lra.
Qed.

(** C9 (amended). Between 2^-1000 and 2^1000 the semitone value is
    finite and increasing in the frequency up to the rounding of
    float64: for f1 <= f2 the value at f1 exceeds the value at f2 by
    2^-36 at most, and it is strictly smaller as soon as the exact
    semitone values differ by more than 2^-36. *)
Theorem hz_to_midi_increasing_up_to_rounding (f1 f2 : R) :
  (bpow (-1000) <= f1)%R -> (f1 <= f2)%R -> (f2 <= bpow 1000)%R ->
  exists s1 s2,
    hz_to_midi1 (Fin f1) = Fin s1 /\
    hz_to_midi1 (Fin f2) = Fin s2 /\
    (s1 <= s2 + bpow (-36))%R /\
    ((bpow (-36) < 12 * log2 (f2 / 440) - 12 * log2 (f1 / 440))%R ->
     (s1 < s2)%R).
Proof.
  intros Hlo H12 Hhi.
  pose proof (bpow_pos (-1000)) as Hpos.
  destruct (hz_to_midi1_accuracy f1 ltac:(lra)) as (s1 & E1 & A1).
  destruct (hz_to_midi1_accuracy f2 ltac:(lra)) as (s2 & E2 & A2).
  exists s1, s2.
  split; [exact E1 |]. split; [exact E2 |].
  assert (E36 : bpow (-36) = (2 * bpow (-37))%R).
  { rewrite <- bpow_succ. reflexivity. }
  assert (Hexact : (log2 (f1 / 440) <= log2 (f2 / 440))%R).
  { apply log2_le; unfold Rdiv; lra. }
  apply Rabs_le_elim in A1. apply Rabs_le_elim in A2.
  split; [lra |]. intros Hgap. lra.
Qed.

Lemma hz_to_midi_increasing_up_to_rounding_witness :
  exists s1 s2,
    hz_to_midi1 (Fin 220) = Fin s1 /\
    hz_to_midi1 (Fin 440) = Fin s2 /\
    (s1 <= s2 + bpow (-36))%R /\
    ((bpow (-36) < 12 * log2 (440 / 440) - 12 * log2 (220 / 440))%R ->
     (s1 < s2)%R).
Proof.
  pose proof (bpow_le (-1000) 0 ltac:(lia)) as H0.
  pose proof (bpow_le 10 1000 ltac:(lia)) as H1.
  rewrite (bpow_IZR 0) in H0 by lia. rewrite (bpow_IZR 10) in H1 by lia.
  change (IZR (2 ^ 0)) with 1%R in H0. change (IZR (2 ^ 10)) with 1024%R in H1.
  apply (hz_to_midi_increasing_up_to_rounding 220 440); lra.
Defined.

(** ** Decimation *)

Lemma ceil_div_spec (n d : nat) :
  1 <= d -> n <= ceil_div n d * d /\ ceil_div n d * d < n + d.
Proof.
  intros Hd. unfold ceil_div.
  pose proof (Nat.div_mod_eq (n + d - 1) d) as E.
  pose proof (Nat.mod_upper_bound (n + d - 1) d ltac:(lia)) as B.
  nia.
Qed.

Section Stride.
Context {A : Type}.
Variable D : nat.
Hypothesis D_pos : 1 <= D.

Lemma take_every_length (l : list A) :
  forall k,
    List.length (take_every D k l) = (List.length l + D - 1 - k) / D.
Proof.
  induction l as [| x l IH]; intros k; cbn [take_every List.length].
  - symmetry. apply Nat.div_small. lia.
  - destruct k as [| k]; cbn [List.length]; rewrite IH.
    + replace (List.length l + D - 1 - (D - 1)) with (List.length l) by lia.
      replace (S (List.length l) + D - 1 - 0) with (List.length l + 1 * D) by lia.
      rewrite Nat.div_add by lia. lia.
    + f_equal. lia.
Qed.

Lemma take_every_nth (l : list A) :
  forall k i, nth_error (take_every D k l) i = nth_error l (k + i * D).
Proof.
  induction l as [| x l IH]; intros k i; simpl.
  - destruct i, (k + _); reflexivity.
  - destruct k as [| k]; simpl.
    + destruct i as [| i]; simpl; [reflexivity |].
      rewrite IH.
      replace (D + i * D) with (S (D - 1 + i * D)) by lia.
      reflexivity.
    + apply IH.
Qed.

Lemma stride_length (l : list A) :
  List.length (stride D l) = ceil_div (List.length l) D.
Proof.
  unfold stride, ceil_div. rewrite take_every_length. f_equal. lia.
Qed.

Lemma stride_nth (l : list A) (i : nat) :
  nth_error (stride D l) i = nth_error l (i * D).
Proof. unfold stride. rewrite take_every_nth. reflexivity. Qed.
End Stride.

Lemma take_every_map {A B : Type} (g : A -> B) (D : nat) (l : list A) :
  forall k, take_every D k (map g l) = map g (take_every D k l).
Proof.
  induction l as [| x l IH]; intros k; simpl; [reflexivity |].
  destruct k; simpl; rewrite IH; reflexivity.
Qed.

Lemma mapM_take_every {A B : Type} (f : A -> result B) (D : nat) (l : list A) :
  forall k bs,
    mapM f l = Ok bs ->
    mapM f (take_every D k l) = Ok (take_every D k bs).
Proof.
  induction l as [| x l IH]; intros k bs H; simpl in *.
  - injection H as <-. reflexivity.
  - destruct (f x) as [b | e] eqn:Hb; simpl in H; [| discriminate].
    destruct (mapM f l) as [bs' | e] eqn:Hbs; simpl in H; [| discriminate].
    injection H as <-.
    destruct k; simpl.
    + rewrite Hb. simpl. rewrite (IH _ _ eq_refl). reflexivity.
    + apply IH. reflexivity.
Qed.

Lemma mapM_length {A B : Type} (f : A -> result B) (l : list A) :
  forall bs, mapM f l = Ok bs -> List.length bs = List.length l.
Proof.
  induction l as [| x l IH]; intros bs H; simpl in *.
  - injection H as <-. reflexivity.
  - destruct (f x); simpl in H; [| discriminate].
    destruct (mapM f l); simpl in H; [| discriminate].
    injection H as <-. simpl. f_equal. apply IH. reflexivity.
Qed.

Lemma mapM_total {A B : Type} (f : A -> result B) (P : A -> Prop) (l : list A) :
  (forall a, P a -> exists b, f a = Ok b) ->
  Forall P l ->
  exists bs, mapM f l = Ok bs.
Proof.
  intros Hf. induction 1 as [| a l Ha _ [bs IH]]; simpl.
  - eexists. reflexivity.
  - destruct (Hf a Ha) as [b ->]. rewrite IH. simpl. eexists. reflexivity.
Qed.

Lemma mapM_nth {A B : Type} (f : A -> result B) (l : list A) :
  forall bs i a,
    mapM f l = Ok bs -> nth_error l i = Some a ->
    exists b, f a = Ok b /\ nth_error bs i = Some b.
Proof.
  induction l as [| x l IH]; intros bs i a H Hi; simpl in *.
  - destruct i; discriminate.
  - destruct (f x) as [b |] eqn:Hb; simpl in H; [| discriminate].
    destruct (mapM f l) as [bs' |] eqn:Hbs; simpl in H; [| discriminate].
    injection H as <-.
    destruct i as [| i]; simpl in *.
    + injection Hi as <-. exists b. split; [assumption | reflexivity].
    + apply (IH _ _ _ eq_refl Hi).
Qed.

Lemma samples_take_every (D : nat) (l : list float64) :
  samples l -> forall k, samples (take_every D k l).
Proof.
  unfold samples. induction 1 as [| x l Hx _ IH]; intros k; simpl.
  - constructor.
  - destruct k; [constructor; [assumption |] |]; apply IH.
Qed.

(** C6. Decimation by a factor D >= 1 (5 in the code) is a stride
    sample: the kept sequence has length ceil(N / D) and its element i
    is element i * D of the input. *)
Theorem decimation_is_stride {A : Type} (D : nat) (l : list A) :
  1 <= D ->
  List.length (stride D l) = ceil_div (List.length l) D /\
  (List.length l <= List.length (stride D l) * D < List.length l + D) /\
  forall i, i < List.length (stride D l) ->
            exists x, nth_error (stride D l) i = Some x /\
                      nth_error l (i * D) = Some x.
Proof.
  intros HD.
  split; [apply stride_length; assumption |].
  split; [rewrite stride_length by assumption; apply ceil_div_spec; assumption |].
  intros i Hi.
  destruct (nth_error (stride D l) i) as [x |] eqn:E.
  - exists x. split; [reflexivity |].
    rewrite <- stride_nth by assumption. exact E.
  - apply nth_error_None in E. lia.
Qed.

Lemma decimation_is_stride_witness :
  List.length (stride step (seq 0 12)) = ceil_div 12 step /\
  exists x, nth_error (stride step (seq 0 12)) 2 = Some x /\
            nth_error (seq 0 12) (2 * step) = Some x.
Proof.
  destruct (decimation_is_stride step (seq 0 12)) as (Hlen & _ & Hnth).
  - unfold step. lia.
  - split; [exact Hlen |]. apply Hnth. simpl. lia.
Defined.

(** ** The Fretboard Mapper *)

Lemma valid_fret_dec (fret : Z) :
  (0 <=? fret)%Z && (fret <=? MAX_FRET)%Z = true <-> valid_fret fret.
Proof. unfold valid_fret. rewrite andb_true_iff, !Z.leb_le. tauto. Qed.

Lemma midi_to_fret_candidate (x : R) (p : Z) :
  midi_to_fret (Fin x) p =
  Ok (if (0 <=? candidate_fret x p)%Z && (candidate_fret x p <=? MAX_FRET)%Z
      then candidate_fret x p else (-1)%Z).
Proof. apply midi_to_fret_Fin. Qed.

Section Mapper.
Variable x : R.

Lemma first_minimal_init : first_minimal x [] (None, 100%Z).
Proof. simpl. split; [reflexivity | intros s p []]. Qed.

Lemma nth_error_snoc {A : Type} (l : list A) (a b : A) (j : nat) :
  nth_error (l ++ [a]) j = Some b ->
  (j < List.length l /\ nth_error l j = Some b) \/
  (j = List.length l /\ b = a).
Proof.
  intros H. destruct (Nat.lt_ge_cases j (List.length l)) as [Hj | Hj].
  - left. split; [assumption |]. rewrite nth_error_app1 in H; assumption.
  - right. rewrite nth_error_app2 in H by assumption.
    destruct (j - List.length l) as [| [| m]] eqn:E; simpl in H;
      try discriminate.
    injection H as <-. split; [lia | reflexivity].
Qed.

Lemma try_string_step (seen : tuning) (st : option string * Z)
      (entry : string * Z) :
  first_minimal x seen st ->
  exists st',
    try_string (Fin x) st entry = Ok st' /\
    first_minimal x (seen ++ [entry]) st'.
Proof.
  destruct entry as [s p]. destruct st as [best m].
  unfold try_string. cbn [fst snd]. rewrite midi_to_fret_candidate.
  set (f := candidate_fret x p). cbn [bind].
  intros Inv.
  destruct ((0 <=? f)%Z && (f <=? MAX_FRET)%Z) eqn:Hv.
  - apply valid_fret_dec in Hv.
    assert (Hne : (f =? -1)%Z = false).
    { apply Z.eqb_neq. unfold valid_fret in Hv. lia. }
    rewrite Hne. cbn [negb andb].
    destruct (Z.ltb_spec f m) as [Hlt | Hge].
    + (* the candidate improves on the state *)
      eexists. split; [reflexivity |].
      unfold first_minimal. cbn [fst snd].
      exists (List.length seen), p.
      split; [rewrite nth_error_app2, Nat.sub_diag by lia; reflexivity |].
      split; [reflexivity |]. split; [assumption |].
      assert (Hseen : forall j sj pj,
                 nth_error seen j = Some (sj, pj) ->
                 valid_fret (candidate_fret x pj) ->
                 (f < candidate_fret x pj)%Z).
      { intros j sj pj Hj Hvj.
        unfold first_minimal in Inv. cbn [fst snd] in Inv.
        destruct best as [b |].
        - destruct Inv as (i & q & _ & _ & _ & Hmin & _).
          specialize (Hmin j sj pj Hj Hvj). lia.
        - destruct Inv as [_ Hnone].
          exfalso. apply (Hnone sj pj); [| assumption].
          eapply nth_error_In; eassumption. }
      split.
      * intros j sj pj Hj Hvj.
        apply nth_error_snoc in Hj as [[_ Hj] | [_ Hj]].
        -- specialize (Hseen j sj pj Hj Hvj). lia.
        -- injection Hj as -> ->. fold f. lia.
      * intros j sj pj Hlt' Hj Hvj.
        apply nth_error_snoc in Hj as [[_ Hj] | [Hj _]]; [| lia].
        apply (Hseen j sj pj Hj Hvj).
    + (* the state is kept: it holds a string already *)
      eexists. split; [reflexivity |].
      unfold first_minimal in *. cbn [fst snd] in *.
      destruct best as [b |].
      * destruct Inv as (i & q & Hi & Hm & Hvm & Hmin & Hfirst).
        exists i, q.
        assert (Hil : i < List.length seen).
        { apply nth_error_Some. rewrite Hi. discriminate. }
        split; [rewrite nth_error_app1; assumption |].
        split; [assumption |]. split; [assumption |].
        split.
        -- intros j sj pj Hj Hvj.
           apply nth_error_snoc in Hj as [[_ Hj] | [_ Hj]].
           ++ apply (Hmin j sj pj Hj Hvj).
           ++ injection Hj as -> ->. fold f. lia.
        -- intros j sj pj Hlt' Hj Hvj.
           apply nth_error_snoc in Hj as [[_ Hj] | [Hj _]]; [| lia].
           apply (Hfirst j sj pj Hlt' Hj Hvj).
      * destruct Inv as [-> _]. unfold valid_fret, MAX_FRET in Hv. lia.
  - (* the candidate is out of range: midi_to_fret returned -1 *)
    cbn [Z.eqb negb andb].
    assert (Hnv : ~ valid_fret f).
    { intros H. apply valid_fret_dec in H. congruence. }
    eexists. split; [reflexivity |].
    unfold first_minimal in *. cbn [fst snd] in *.
    destruct best as [b |].
    + destruct Inv as (i & q & Hi & Hm & Hvm & Hmin & Hfirst).
      exists i, q.
      assert (Hil : i < List.length seen).
      { apply nth_error_Some. rewrite Hi. discriminate. }
      split; [rewrite nth_error_app1; assumption |].
      split; [assumption |]. split; [assumption |].
      split.
      * intros j sj pj Hj Hvj.
        apply nth_error_snoc in Hj as [[_ Hj] | [_ Hj]].
        -- apply (Hmin j sj pj Hj Hvj).
        -- injection Hj as -> ->. contradiction.
      * intros j sj pj Hlt' Hj Hvj.
        apply nth_error_snoc in Hj as [[_ Hj] | [Hj _]]; [| lia].
        apply (Hfirst j sj pj Hlt' Hj Hvj).
    + destruct Inv as [Hm Hnone]. split; [assumption |].
      intros s' p' Hin. apply in_app_or in Hin as [Hin | [Hin | []]].
      * apply (Hnone s' p' Hin).
      * injection Hin as <- <-. assumption.
Qed.

Lemma try_string_loop (rest : tuning) :
  forall seen st,
    first_minimal x seen st ->
    exists st',
      foldM (try_string (Fin x)) rest st = Ok st' /\
      first_minimal x (seen ++ rest) st'.
Proof.
  induction rest as [| entry rest IH]; intros seen st Inv.
  - exists st. rewrite app_nil_r. split; [reflexivity | assumption].
  - destruct (try_string_step seen st entry Inv) as (st1 & Hstep & Inv1).
    destruct (IH _ _ Inv1) as (st' & Hloop & Inv').
    exists st'. cbn [foldM]. rewrite Hstep. cbn [bind].
    split; [assumption |].
    rewrite <- app_assoc in Inv'. exact Inv'.
Qed.

Lemma choose_string_first_minimal (t : tuning) :
  exists st, choose_string t (Fin x) = Ok st /\ first_minimal x t st.
Proof.
  apply (try_string_loop t [] (None, 100%Z) first_minimal_init).
Qed.
End Mapper.

Lemma choose_string_total (t : tuning) (note : float64) :
  is_inf note = false -> np_isnan note = false ->
  exists st, choose_string t note = Ok st.
Proof.
  destruct note as [| b | x]; simpl; try discriminate.
  intros _ _. destruct (choose_string_first_minimal x t) as (st & H & _).
  exists st. exact H.
Qed.

Lemma fret_assignment_total (t : tuning) (note : float64) :
  is_inf note = false -> exists a, fret_assignment t note = Ok a.
Proof.
  intros Hinf. unfold fret_assignment.
  destruct (np_isnan note) eqn:Hnan.
  - eexists. reflexivity.
  - destruct (choose_string_total t note Hinf Hnan) as [st ->].
    eexists. reflexivity.
Qed.

Lemma first_minimal_valid (x : R) (t : tuning) (st : option string * Z) s f :
  first_minimal x t st ->
  assignment_of_state st = Some (s, f) ->
  valid_fret f /\ In s (map fst t).
Proof.
  unfold first_minimal, assignment_of_state.
  destruct st as [[b |] m]; cbn [fst snd]; [| discriminate].
  intros (i & p & Hi & _ & Hv & _) H. injection H as <- <-.
  split; [assumption |].
  apply nth_error_In in Hi. apply (in_map fst) in Hi. exact Hi.
Qed.

Lemma fret_assignment_valid (t : tuning) (note : float64) s f :
  fret_assignment t note = Ok (Some (s, f)) ->
  valid_fret f /\ In s (map fst t).
Proof.
  unfold fret_assignment.
  destruct note as [| b | x]; cbn [np_isnan]; try discriminate.
  - unfold choose_string.
    destruct t as [| e t]; cbn; [discriminate |].
    unfold try_string, midi_to_fret. cbn. discriminate.
  - destruct (choose_string_first_minimal x t) as (st & -> & Hmin).
    cbn [bind]. intros H. injection H as H.
    eapply first_minimal_valid; eassumption.
Qed.

(** *** The tab lines as columns of FretAssignments *)

Lemma append_column_ext (f g : string -> string) (tl : tab_lines_t) :
  (forall s, f s = g s) -> append_column f tl = append_column g tl.
Proof.
  intros H. unfold append_column. apply map_ext. intros kl. rewrite H.
  reflexivity.
Qed.

Lemma symbol_of_column (st : option string * Z) (s : string) :
  symbol_of st s = column_symbol (assignment_of_state st) s.
Proof. destruct st as [[b |] m]; reflexivity. Qed.

Lemma place_note_assignment (t : tuning) (tl : tab_lines_t) (note : float64) :
  place_note t tl note =
  (a <- fret_assignment t note ;; Ok (append_column (column_symbol a) tl)).
Proof.
  unfold place_note, fret_assignment.
  destruct (np_isnan note); [reflexivity |].
  destruct (choose_string t note) as [st | e]; cbn [bind]; [| reflexivity].
  f_equal. apply append_column_ext, symbol_of_column.
Qed.

Lemma append_columns_cons tl a assignments :
  append_columns (append_column (column_symbol a) tl) assignments =
  append_columns tl (a :: assignments).
Proof.
  unfold append_columns, append_column. rewrite map_map.
  apply map_ext. intros [k l]. cbn [fst snd map].
  rewrite <- app_assoc. reflexivity.
Qed.

Lemma foldM_place_note (t : tuning) (notes : list float64) :
  forall tl,
    foldM (place_note t) notes tl =
    (assignments <- mapM (fret_assignment t) notes ;;
     Ok (append_columns tl assignments)).
Proof.
  induction notes as [| note notes IH]; intros tl; cbn [foldM mapM bind].
  - unfold append_columns. f_equal. symmetry.
    rewrite <- (map_id tl) at 2. apply map_ext. intros [k l]. cbn.
    rewrite app_nil_r. reflexivity.
  - rewrite place_note_assignment.
    destruct (fret_assignment t note) as [a | e]; cbn [bind]; [| reflexivity].
    rewrite IH.
    destruct (mapM (fret_assignment t) notes) as [assignments | e];
      cbn [bind]; [| reflexivity].
    rewrite append_columns_cons. reflexivity.
Qed.

Lemma fill_tab_lines_assignments (t : tuning) (notes : list float64) :
  fill_tab_lines t notes =
  (assignments <- mapM (fret_assignment t) notes ;; Ok (lines_of t assignments)).
Proof.
  unfold fill_tab_lines. rewrite foldM_place_note.
  destruct (mapM (fret_assignment t) notes) as [assignments | e];
    cbn [bind]; [| reflexivity].
  f_equal. unfold append_columns, empty_tab_lines, lines_of.
  rewrite map_map. reflexivity.
Qed.

Lemma fret_assignments_total (t : tuning) (notes : list float64) :
  samples notes -> exists assignments, mapM (fret_assignment t) notes = Ok assignments.
Proof.
  apply mapM_total. intros a. apply fret_assignment_total.
Qed.

(** C1. For a semitone value that is not the sentinel, the mapper
    computes on each string the candidate round (value - open string),
    keeps the candidates between 0 and MAX_FRET, and returns the
    smallest one; among the strings that tie on it, the one declared
    first in the tuning. *)
Theorem mapper_selects_first_minimal_fret (t : tuning) (x : R) :
  exists best_string min_fret,
    choose_string t (Fin x) = Ok (best_string, min_fret) /\
    (forall s p, In (s, p) t ->
       let fret := round_half_even (x - IZR p) in
       (Rabs (x - IZR p - IZR fret) <= 1 / 2)%R /\
       midi_to_fret (Fin x) p =
       Ok (if (0 <=? fret)%Z && (fret <=? MAX_FRET)%Z then fret else (-1)%Z)) /\
    match best_string with
    | Some s =>
        exists i p,
          nth_error t i = Some (s, p) /\
          min_fret = round_half_even (x - IZR p) /\
          (0 <= min_fret <= MAX_FRET)%Z /\
          (forall j sj pj,
              nth_error t j = Some (sj, pj) ->
              (0 <= round_half_even (x - IZR pj) <= MAX_FRET)%Z ->
              (min_fret <= round_half_even (x - IZR pj))%Z) /\
          (forall j sj pj,
              j < i ->
              nth_error t j = Some (sj, pj) ->
              (0 <= round_half_even (x - IZR pj) <= MAX_FRET)%Z ->
              (min_fret < round_half_even (x - IZR pj))%Z)
    | None =>
        forall s p, In (s, p) t ->
                    ~ (0 <= round_half_even (x - IZR p) <= MAX_FRET)%Z
    end /\
    fret_assignment t (Fin x) =
    Ok (match best_string with
        | Some s => Some (s, min_fret)
        | None => None
        end).
Proof.
  destruct (choose_string_first_minimal x t) as ([best m] & Hrun & Hmin).
  exists best, m.
  split; [exact Hrun |].
  split.
  { intros s p _. split; [apply round_half_even_near | apply midi_to_fret_Fin]. }
  split.
  - unfold first_minimal, valid_fret, candidate_fret in Hmin.
    cbn [fst snd] in Hmin.
    destruct best as [s |]; [exact Hmin | apply Hmin].
  - unfold fret_assignment. cbn [np_isnan]. rewrite Hrun.
    destruct best; reflexivity.
Qed.

(** A tuning with two strings at the same pitch: the first one wins. *)
Example tie_goes_to_first_string :
  choose_string [("a", 60); ("b", 60)]%Z (Fin 62) = Ok (Some "a", 2%Z).
Proof.
  unfold choose_string. cbn [foldM]. unfold try_string. cbn [fst snd].
  rewrite !midi_to_fret_int. reflexivity.
Qed.

(** C5. When no string has a valid fret for a note, the mapper leaves
    [best_string] at [None]: the assignment is SILENT, every string line
    receives the placeholder, and nothing is raised. *)
Theorem unplayable_note_is_silent (t : tuning) (x : R) (tab_lines : tab_lines_t) :
  (forall s p, In (s, p) t -> midi_to_fret (Fin x) p = Ok (-1)%Z) ->
  choose_string t (Fin x) = Ok (None, 100%Z) /\
  fret_assignment t (Fin x) = Ok None /\
  place_note t tab_lines (Fin x) = Ok (append_column (fun _ => "-") tab_lines).
Proof.
  intros Hnone.
  assert (Hinv : forall s p, In (s, p) t -> ~ valid_fret (candidate_fret x p)).
  { intros s p Hin Hv. specialize (Hnone s p Hin).
    rewrite midi_to_fret_candidate in Hnone.
    pose proof Hv as Hb. apply valid_fret_dec in Hb. rewrite Hb in Hnone.
    injection Hnone as E. unfold valid_fret in Hv. lia. }
  destruct (choose_string_first_minimal x t) as ([best m] & Hrun & Hmin).
  unfold first_minimal in Hmin. cbn [fst snd] in Hmin.
  destruct best as [s |].
  - destruct Hmin as (i & p & Hi & Hm & Hv & _).
    exfalso. apply (Hinv s p); [eapply nth_error_In; eassumption |].
    rewrite <- Hm. assumption.
  - destruct Hmin as [-> _].
    split; [exact Hrun |].
    unfold place_note, fret_assignment. cbn [np_isnan]. rewrite Hrun.
    split; reflexivity.
Qed.

Lemma unplayable_note_is_silent_witness :
  choose_string guitar_tuning (Fin 30) = Ok (None, 100%Z) /\
  fret_assignment guitar_tuning (Fin 30) = Ok None /\
  place_note guitar_tuning (empty_tab_lines guitar_tuning) (Fin 30)
  = Ok [("e", ["-"]); ("B", ["-"]); ("G", ["-"]); ("D", ["-"]); ("A", ["-"]);
        ("E", ["-"])].
Proof.
  apply (unplayable_note_is_silent guitar_tuning 30
           (empty_tab_lines guitar_tuning)).
  intros s p Hin. rewrite midi_to_fret_int.
  simpl in Hin.
  repeat (destruct Hin as [Hin | Hin]; [injection Hin as <- <-; reflexivity |]).
  destruct Hin.
Defined.

(** A note above the last fret of every string is dropped as well. *)
Example too_high_note_is_silent :
  fret_assignment guitar_tuning (Fin 100) = Ok None.
Proof.
  unfold fret_assignment, choose_string. cbn [np_isnan guitar_tuning foldM].
  unfold try_string. cbn [fst snd]. rewrite !midi_to_fret_int. reflexivity.
Qed.

(** ** The pipeline up to the tab lines *)

Lemma midi_notes_total (f0 : list float64) (voiced_flag : list bool) :
  List.length f0 = List.length voiced_flag ->
  exists midi_notes, midi_notes_of f0 voiced_flag = Ok midi_notes.
Proof.
  intros Hlen. unfold midi_notes_of, mask_unvoiced.
  rewrite Hlen, Nat.eqb_refl. cbn [bind]. eexists. reflexivity.
Qed.

Lemma processed_notes_Ok (f0 : list float64) (voiced_flag : list bool) :
  List.length f0 = List.length voiced_flag ->
  exists processed_notes, processed_notes_of f0 voiced_flag = Ok processed_notes.
Proof.
  intros Hlen.
  destruct (midi_notes_total f0 voiced_flag Hlen) as [notes Hn].
  exists (stride step notes). unfold processed_notes_of. rewrite Hn. reflexivity.
Qed.

Lemma mapM_In {A B : Type} (f : A -> result B) (l : list A) :
  forall bs b,
    mapM f l = Ok bs -> In b bs -> exists a, In a l /\ f a = Ok b.
Proof.
  induction l as [| x l IH]; intros bs b H Hin; simpl in *.
  - injection H as <-. destruct Hin.
  - destruct (f x) as [b0 |] eqn:Hb; simpl in H; [| discriminate].
    destruct (mapM f l) as [bs' |] eqn:Hbs; simpl in H; [| discriminate].
    injection H as <-. destruct Hin as [<- | Hin].
    + exists x. split; [left; reflexivity | assumption].
    + destruct (IH _ _ eq_refl Hin) as (a & Ha & Hfa).
      exists a. split; [right; assumption | assumption].
Qed.

Lemma column_symbol_tab_symbol (a : option (string * Z)) (name : string) :
  (forall s f, a = Some (s, f) -> valid_fret f) ->
  tab_symbol (column_symbol a name).
Proof.
  intros Hv. unfold column_symbol, tab_symbol.
  destruct a as [[b f] |]; [| left; reflexivity].
  destruct (String.eqb name b); [| left; reflexivity].
  right. exists f. split; [apply (Hv b f eq_refl) | reflexivity].
Qed.

(** C4. Whatever the pipeline returns, every assignment of a kept frame
    is SILENT or carries a fret between 0 and MAX_FRET on a string of
    the tuning, and every symbol written to the tab lines is the
    placeholder or such a fret.  On sequences of equal length the kept
    notes are produced, and the note loop completes whenever none of
    them is infinite. *)
Theorem emitted_frets_within_bounds (t : tuning) (f0 : list float64)
    (voiced_flag : list bool) :
  List.length f0 = List.length voiced_flag ->
  exists processed_notes,
    processed_notes_of f0 voiced_flag = Ok processed_notes /\
    (samples processed_notes ->
     exists tl, fill_tab_lines t processed_notes = Ok tl) /\
    (forall tl,
        fill_tab_lines t processed_notes = Ok tl ->
        exists assignments,
          mapM (fret_assignment t) processed_notes = Ok assignments /\
          tl = lines_of t assignments /\
          (forall s f, In (Some (s, f)) assignments ->
                       (0 <= f <= MAX_FRET)%Z /\ In s (map fst t)) /\
          (forall name line sym,
              In (name, line) tl ->
              In sym line ->
              sym = "-" \/ exists f, (0 <= f <= MAX_FRET)%Z /\ sym = str f)).
Proof.
  intros Hlen.
  destruct (processed_notes_Ok f0 voiced_flag Hlen) as (notes & Hn).
  exists notes. split; [exact Hn |].
  split.
  { intros Hsn. destruct (fret_assignments_total t notes Hsn) as [assignments Ha].
    exists (lines_of t assignments).
    rewrite fill_tab_lines_assignments, Ha. reflexivity. }
  intros tl Hfill.
  rewrite fill_tab_lines_assignments in Hfill.
  destruct (mapM (fret_assignment t) notes) as [assignments | e] eqn:Ha;
    cbn [bind] in Hfill; [| discriminate].
  injection Hfill as <-.
  exists assignments. split; [reflexivity |]. split; [reflexivity |].
  assert (Hvalid : forall s f, In (Some (s, f)) assignments ->
                               valid_fret f /\ In s (map fst t)).
  { intros s f Hin.
    destruct (mapM_In _ _ _ _ Ha Hin) as (note & _ & Hnote).
    eapply fret_assignment_valid; eassumption. }
  split; [exact Hvalid |].
  intros name line sym Hline Hsym.
  unfold lines_of in Hline. apply in_map_iff in Hline as (entry & E & _).
  injection E as <- <-.
  apply in_map_iff in Hsym as (a & <- & Hin).
  apply column_symbol_tab_symbol.
  intros s f ->. apply (Hvalid s f Hin).
Qed.

Lemma emitted_frets_within_bounds_witness :
  exists processed_notes,
    processed_notes_of [Fin 440; NaN] [true; false] = Ok processed_notes /\
    (samples processed_notes ->
     exists tl, fill_tab_lines guitar_tuning processed_notes = Ok tl) /\
    (forall tl,
        fill_tab_lines guitar_tuning processed_notes = Ok tl ->
        exists assignments,
          mapM (fret_assignment guitar_tuning) processed_notes = Ok assignments /\
          tl = lines_of guitar_tuning assignments /\
          (forall s f, In (Some (s, f)) assignments ->
                       (0 <= f <= MAX_FRET)%Z /\ In s (map fst guitar_tuning)) /\
          (forall name line sym,
              In (name, line) tl ->
              In sym line ->
              sym = "-" \/ exists f, (0 <= f <= MAX_FRET)%Z /\ sym = str f)).
Proof.
  apply (emitted_frets_within_bounds guitar_tuning [Fin 440; NaN] [true; false]).
  reflexivity.
Defined.

(** C10. On semitone sequences of the data model, decimating the notes
    and mapping the kept ones (the code) gives the same FretAssignments
    as mapping every frame and decimating the assignments (the
    specification's order); the tab lines of the code are the lines of
    these assignments. *)
Theorem decimate_then_map_is_map_then_decimate (t : tuning)
    (midi_notes : list float64) :
  samples midi_notes ->
  exists assignments,
    assignments_decimate_then_map t midi_notes = Ok assignments /\
    assignments_map_then_decimate t midi_notes = Ok assignments /\
    fill_tab_lines t (stride step midi_notes) = Ok (lines_of t assignments).
Proof.
  intros Hs.
  destruct (fret_assignments_total t midi_notes Hs) as [all Hall].
  exists (stride step all).
  unfold assignments_decimate_then_map, assignments_map_then_decimate.
  assert (Hcode : mapM (fret_assignment t) (stride step midi_notes)
                  = Ok (stride step all)).
  { apply mapM_take_every. exact Hall. }
  split; [exact Hcode |].
  split; [rewrite Hall; reflexivity |].
  rewrite fill_tab_lines_assignments, Hcode. reflexivity.
Qed.

Lemma decimate_then_map_is_map_then_decimate_witness :
  exists assignments,
    assignments_decimate_then_map guitar_tuning
      [Fin 69; NaN; Fin 30; Fin 64; NaN; NaN; Fin 40] = Ok assignments /\
    assignments_map_then_decimate guitar_tuning
      [Fin 69; NaN; Fin 30; Fin 64; NaN; NaN; Fin 40] = Ok assignments /\
    fill_tab_lines guitar_tuning
      (stride step [Fin 69; NaN; Fin 30; Fin 64; NaN; NaN; Fin 40])
    = Ok (lines_of guitar_tuning assignments).
Proof.
  apply (decimate_then_map_is_map_then_decimate guitar_tuning).
  repeat constructor.
Defined.

(** Outside the data model the two orders differ: an infinite value in a
    frame that decimation drops raises only when every frame is mapped. *)
Example infinite_frame_separates_the_orders :
  assignments_decimate_then_map guitar_tuning [NaN; Inf false] = Ok [None] /\
  assignments_map_then_decimate guitar_tuning [NaN; Inf false]
  = Raise OverflowError.
Proof. split; reflexivity. Qed.

(** ** The 440 Hz scenario *)

Lemma choose_string_A4 :
  choose_string guitar_tuning (Fin 69) = Ok (Some "e", 5%Z).
Proof.
  unfold choose_string. cbn [guitar_tuning foldM]. unfold try_string.
  cbn [fst snd]. rewrite !midi_to_fret_int. reflexivity.
Qed.

Lemma fret_assignment_A4 :
  fret_assignment guitar_tuning (Fin 69) = Ok (Some ("e", 5%Z)).
Proof.
  unfold fret_assignment. cbn [np_isnan]. rewrite choose_string_A4. reflexivity.
Qed.

Lemma mapM_repeat {A B : Type} (f : A -> result B) (a : A) (b : B) (n : nat) :
  f a = Ok b -> mapM f (repeat a n) = Ok (repeat b n).
Proof.
  intros H. induction n as [| n IH]; simpl; [reflexivity |].
  rewrite H, IH. reflexivity.
Qed.

(** C8. A constant voiced 440 Hz signal of 100 frames under the standard
    tuning: the 20 kept samples are all semitone 69, the mapper selects
    string 'e' at fret 5, and 5 is the smallest valid fret over the six
    strings. *)
Theorem constant_A4_maps_to_e_string_fret_5 :
  processed_notes_of (repeat (Fin 440) 100) (repeat true 100)
  = Ok (repeat (Fin 69) 20) /\
  choose_string guitar_tuning (Fin 69) = Ok (Some "e", 5%Z) /\
  mapM (fret_assignment guitar_tuning) (repeat (Fin 69) 20)
  = Ok (repeat (Some ("e", 5%Z)) 20) /\
  (forall s p fret,
      In (s, p) guitar_tuning ->
      midi_to_fret (Fin 69) p = Ok fret ->
      fret <> (-1)%Z ->
      (5 <= fret)%Z /\ (fret = 5%Z -> s = "e")) /\
  fill_tab_lines guitar_tuning (repeat (Fin 69) 20)
  = Ok [("e", repeat "5" 20); ("B", repeat "-" 20); ("G", repeat "-" 20);
        ("D", repeat "-" 20); ("A", repeat "-" 20); ("E", repeat "-" 20)] /\
  generate_tabs (repeat (Fin 440) 100) (repeat true 100)
  = Ok ("e|55555555555555555555|" ++ newline
        ++ "B|--------------------|" ++ newline
        ++ "G|--------------------|" ++ newline
        ++ "D|--------------------|" ++ newline
        ++ "A|--------------------|" ++ newline
        ++ "E|--------------------|" ++ newline ++ newline)%string.
Proof.
  assert (Hnotes : processed_notes_of (repeat (Fin 440) 100) (repeat true 100)
                   = Ok (repeat (Fin 69) 20)).
  { unfold processed_notes_of, midi_notes_of, mask_unvoiced, hz_to_midi.
    cbn -[hz_to_midi1]. rewrite !hz_to_midi1_440. reflexivity. }
  split; [exact Hnotes |].
  split; [apply choose_string_A4 |].
  assert (Hmap : mapM (fret_assignment guitar_tuning) (repeat (Fin 69) 20)
                 = Ok (repeat (Some ("e", 5%Z)) 20)).
  { apply mapM_repeat, fret_assignment_A4. }
  split; [exact Hmap |].
  split.
  - intros s p fret Hin. rewrite midi_to_fret_int.
    simpl in Hin.
    repeat (destruct Hin as [Hin | Hin];
            [injection Hin as <- <-; cbn; intros H; injection H as <-;
             intros Hne; split; [lia | intros; try reflexivity; try lia] |]).
    destruct Hin.
  - assert (Hfill : fill_tab_lines guitar_tuning (repeat (Fin 69) 20)
                    = Ok (lines_of guitar_tuning (repeat (Some ("e", 5%Z)) 20))).
    { rewrite fill_tab_lines_assignments, Hmap. reflexivity. }
    split; [rewrite Hfill; reflexivity |].
    unfold generate_tabs. rewrite Hnotes. cbn [bind]. rewrite Hfill.
    reflexivity.
Qed.

(** ** The Tab Renderer *)

Lemma ceil_div_0 (d : nat) : 1 <= d -> ceil_div 0 d = 0.
Proof. intros Hd. unfold ceil_div. apply Nat.div_small. lia. Qed.

Lemma ceil_div_step (n d : nat) :
  1 <= d -> 1 <= n -> ceil_div n d = S (ceil_div (n - d) d).
Proof.
  intros Hd Hn. unfold ceil_div.
  destruct (Nat.le_gt_cases d n) as [Hle | Hgt].
  - replace (n + d - 1) with (n - d + d - 1 + 1 * d) by lia.
    rewrite Nat.div_add by lia. lia.
  - replace (n - d) with 0 by lia. cbn [Nat.add].
    rewrite (Nat.div_small (d - 1) d) by lia.
    symmetry. apply (Nat.div_unique _ _ 1 (n - 1)); lia.
Qed.

Lemma range_from_spec (stop s : nat) :
  1 <= s ->
  forall fuel i,
    stop <= i + fuel ->
    range_from fuel i stop s
    = map (fun k => i + k * s) (seq 0 (ceil_div (stop - i) s)).
Proof.
  intros Hs. induction fuel as [| fuel IH]; intros i Hfuel; cbn [range_from].
  - replace (stop - i) with 0 by lia. rewrite ceil_div_0 by assumption.
    reflexivity.
  - destruct (Nat.ltb_spec i stop) as [Hlt | Hge].
    + rewrite (ceil_div_step (stop - i) s) by lia.
      cbn [seq map]. f_equal; [lia |].
      rewrite IH by lia. rewrite <- seq_shift, map_map.
      replace (stop - i - s) with (stop - (i + s)) by lia.
      apply map_ext. intros k. lia.
    + replace (stop - i) with 0 by lia. rewrite ceil_div_0 by assumption.
      reflexivity.
Qed.

Lemma py_range_spec (stop s : nat) :
  1 <= s ->
  py_range stop s = map (fun k => k * s) (seq 0 (ceil_div stop s)).
Proof.
  intros Hs. unfold py_range. rewrite range_from_spec by lia.
  rewrite Nat.sub_0_r. reflexivity.
Qed.

Lemma slice_length {A : Type} (l : list A) (i w : nat) :
  List.length (slice l i (i + w)) = Nat.min w (List.length l - i).
Proof.
  unfold slice. rewrite length_firstn, length_skipn. f_equal. lia.
Qed.

Lemma chunks_concat {A : Type} (s : nat) :
  1 <= s ->
  forall m (l : list A),
    List.length l <= m * s ->
    List.concat (map (fun k => slice l (k * s) (k * s + s)) (seq 0 m)) = l.
Proof.
  intros Hs. induction m as [| m IH]; intros l Hl.
  - destruct l; [reflexivity | simpl in Hl; lia].
  - cbn [seq map List.concat].
    rewrite <- seq_shift, map_map.
    transitivity (firstn s l ++ skipn s l); [| apply firstn_skipn]. f_equal.
    + unfold slice. cbn [Nat.mul Nat.add skipn].
      replace (s - 0) with s by lia. reflexivity.
    + rewrite <- (IH (skipn s l)) by (rewrite length_skipn; lia).
      f_equal. apply map_ext. intros k. unfold slice.
      rewrite skipn_skipn. f_equal; [lia |]. f_equal. lia.
Qed.

Lemma mapM_pure {A B : Type} (f : A -> result B) (g : A -> B) (l : list A) :
  (forall a, f a = Ok (g a)) -> mapM f l = Ok (map g l).
Proof.
  intros H. induction l as [| a l IH]; simpl; [reflexivity |].
  rewrite H, IH. reflexivity.
Qed.

Lemma block_segments_lines assignments (i : nat) :
  block_segments (lines_of guitar_tuning assignments) i
  = Ok (block_at assignments i).
Proof. reflexivity. Qed.

Lemma tab_blocks_lines assignments :
  tab_blocks (lines_of guitar_tuning assignments)
  = Ok (map (block_at assignments)
            (py_range (List.length assignments) chunk_size)).
Proof.
  unfold tab_blocks.
  change (dict_get (lines_of guitar_tuning assignments) "E")
    with (Ok (map (fun a => column_symbol a "E") assignments)).
  cbn [bind]. rewrite length_map.
  apply mapM_pure, block_segments_lines.
Qed.

Lemma segment_of_block_at assignments (i : nat) (name : string) :
  In name display_order ->
  segment_of (block_at assignments i) name
  = slice (map (fun a => column_symbol a name) assignments) i (i + chunk_size).
Proof.
  intros Hin. simpl in Hin.
  repeat (destruct Hin as [<- | Hin]; [reflexivity |]).
  destruct Hin.
Qed.

Lemma final_output_separator (b1 b2 : list (string * list string))
      (rest : list (list (string * list string))) :
  String.concat newline (final_output_of (b1 :: b2 :: rest))
  = (block_text b1 ++ newline ++ newline ++ newline
     ++ String.concat newline (final_output_of (b2 :: rest)))%string.
Proof. reflexivity. Qed.

Lemma final_output_last (b : list (string * list string)) :
  String.concat newline (final_output_of [b])
  = (block_text b ++ newline ++ newline)%string.
Proof. reflexivity. Qed.

(** C7. The decimated columns are cut into consecutive chunks of at most
    [chunk_size] = 60 symbols, one block per chunk; 61 decimated samples
    give exactly two blocks, the second with one symbol on each of the
    six string lines. *)
Theorem chunking_into_blocks (processed_notes : list float64) :
  samples processed_notes ->
  exists assignments blocks,
    fill_tab_lines guitar_tuning processed_notes
    = Ok (lines_of guitar_tuning assignments) /\
    tab_blocks (lines_of guitar_tuning assignments) = Ok blocks /\
    render (lines_of guitar_tuning assignments)
    = Ok (String.concat newline (final_output_of blocks)) /\
    List.length blocks = ceil_div (List.length processed_notes) chunk_size /\
    (forall b, In b blocks ->
       map fst b = display_order /\
       forall ls, In ls b -> List.length (snd ls) <= chunk_size) /\
    (forall name line,
        In name display_order ->
        dict_get (lines_of guitar_tuning assignments) name = Ok line ->
        List.length line = List.length processed_notes /\
        List.concat (map (fun b => segment_of b name) blocks) = line) /\
    (List.length processed_notes = 61 ->
     exists b1 b2,
       blocks = [b1; b2] /\
       List.length b2 = 6 /\
       (forall ls, In ls b1 -> List.length (snd ls) = 60) /\
       (forall ls, In ls b2 -> List.length (snd ls) = 1)).
Proof.
  intros Hs.
  destruct (fret_assignments_total guitar_tuning processed_notes Hs)
    as [assignments Ha].
  pose proof (mapM_length _ _ _ Ha) as Hlen.
  exists assignments,
    (map (block_at assignments) (py_range (List.length assignments) chunk_size)).
  split; [rewrite fill_tab_lines_assignments, Ha; reflexivity |].
  split; [apply tab_blocks_lines |].
  split; [unfold render; rewrite tab_blocks_lines; reflexivity |].
  assert (Hw : 1 <= chunk_size) by (unfold chunk_size; lia).
  split.
  { rewrite length_map, py_range_spec, length_map, length_seq, Hlen by assumption.
    reflexivity. }
  split.
  { intros b Hb. apply in_map_iff in Hb as (i & <- & _).
    split; [reflexivity |].
    intros ls Hls. unfold block_at in Hls.
    apply in_map_iff in Hls as (name & <- & _). cbn [snd].
    rewrite slice_length. apply Nat.le_min_l. }
  split.
  { intros name line Hname Hline.
    assert (Eline : line = map (fun a => column_symbol a name) assignments).
    { simpl in Hname.
      repeat (destruct Hname as [<- | Hname];
              [cbn in Hline; injection Hline as <-; reflexivity |]).
      destruct Hname. }
    subst line. split; [rewrite length_map; exact Hlen |].
    rewrite py_range_spec, !map_map by assumption.
    rewrite (map_ext _ (fun k =>
               slice (map (fun a => column_symbol a name) assignments)
                     (k * chunk_size) (k * chunk_size + chunk_size))).
    - apply chunks_concat; [assumption |].
      rewrite length_map. apply ceil_div_spec. assumption.
    - intros k. apply segment_of_block_at. assumption. }
  intros H61. rewrite H61 in Hlen. rewrite Hlen.
  exists (block_at assignments 0), (block_at assignments 60).
  split; [reflexivity |].
  split; [reflexivity |].
  split; intros ls Hls; unfold block_at in Hls;
    apply in_map_iff in Hls as (name & <- & _); cbn [snd];
    rewrite slice_length, length_map, Hlen; reflexivity.
Qed.

Lemma chunking_into_blocks_witness :
  exists assignments blocks,
    fill_tab_lines guitar_tuning (repeat NaN 61)
    = Ok (lines_of guitar_tuning assignments) /\
    tab_blocks (lines_of guitar_tuning assignments) = Ok blocks /\
    render (lines_of guitar_tuning assignments)
    = Ok (String.concat newline (final_output_of blocks)) /\
    List.length blocks = ceil_div (List.length (repeat NaN 61)) chunk_size /\
    (forall b, In b blocks ->
       map fst b = display_order /\
       forall ls, In ls b -> List.length (snd ls) <= chunk_size) /\
    (forall name line,
        In name display_order ->
        dict_get (lines_of guitar_tuning assignments) name = Ok line ->
        List.length line = List.length (repeat NaN 61) /\
        List.concat (map (fun b => segment_of b name) blocks) = line) /\
    (List.length (repeat NaN 61) = 61 ->
     exists b1 b2,
       blocks = [b1; b2] /\
       List.length b2 = 6 /\
       (forall ls, In ls b1 -> List.length (snd ls) = 60) /\
       (forall ls, In ls b2 -> List.length (snd ls) = 1)).
Proof.
  apply (chunking_into_blocks (repeat NaN 61)).
  apply Forall_forall. intros v Hv. apply repeat_spec in Hv. subst v.
  reflexivity.
Defined.

(** C2. The code puts two blank lines, not one, between consecutive
    blocks: each block text is followed by the list element ["\n"], and
    joining the list with ["\n"] adds a newline on both sides of it.
    301 unvoiced frames give 61 kept samples, hence two blocks. *)
Theorem two_blank_lines_between_blocks :
  generate_tabs (repeat NaN 301) (repeat false 301)
  = Ok (silent_block 60 ++ newline ++ newline ++ newline
        ++ silent_block 1 ++ newline ++ newline)%string /\
  tab_blocks (lines_of guitar_tuning (repeat None 61))
  = Ok [block_at (repeat None 61) 0; block_at (repeat None 61) 60] /\
  one_blank_line_layout
    [block_at (repeat None 61) 0; block_at (repeat None 61) 60]
  = (silent_block 60 ++ newline ++ newline ++ silent_block 1)%string /\
  generate_tabs (repeat NaN 301) (repeat false 301)
  <> Ok (one_blank_line_layout
           [block_at (repeat None 61) 0; block_at (repeat None 61) 60]).
Proof.
  assert (Hrun : generate_tabs (repeat NaN 301) (repeat false 301)
                 = Ok (silent_block 60 ++ newline ++ newline ++ newline
                       ++ silent_block 1 ++ newline ++ newline)%string)
    by (vm_compute; reflexivity).
  split; [exact Hrun |].
  split; [vm_compute; reflexivity |].
  split; [vm_compute; reflexivity |].
  rewrite Hrun. intros H. injection H as H.
  vm_compute in H. discriminate H.
Qed.

(** ** More on rounding *)

Lemma round_half_even_below (y : R) (k : Z) :
  (y < IZR k - 1 / 2)%R -> (round_half_even y < k)%Z.
Proof.
  intros H. pose proof (round_half_even_bounds y) as B.
  apply lt_IZR. lra.
Qed.

Lemma round_half_even_above (y : R) (k : Z) :
  (IZR k + 1 / 2 < y)%R -> (k < round_half_even y)%Z.
Proof.
  intros H. pose proof (round_half_even_bounds y) as B.
  apply lt_IZR. lra.
Qed.

(** A candidate is a valid fret exactly on the closed interval from half
    a semitone below the open string to half a semitone above fret 24:
    both end points are ties that round to the even frets 0 and 24. *)
Lemma valid_candidate_interval (x : R) (p : Z) :
  valid_fret (candidate_fret x p) <->
  (IZR p - 1 / 2 <= x <= IZR p + 49 / 2)%R.
Proof.
  unfold valid_fret, candidate_fret, MAX_FRET. split.
  - intros [Hlo Hhi]. split.
    + destruct (Rle_or_lt (IZR p - 1 / 2) x) as [H | H]; [assumption |].
      assert (B : (round_half_even (x - IZR p) < 0)%Z)
        by (apply round_half_even_below; lra).
      lia.
    + destruct (Rle_or_lt x (IZR p + 49 / 2)) as [H | H]; [assumption |].
      assert (B : (24 < round_half_even (x - IZR p))%Z)
        by (apply round_half_even_above; lra).
      lia.
  - intros [Hlo Hhi]. split.
    + destruct (Rle_lt_or_eq_dec _ _ Hlo) as [H | H].
      * apply round_half_even_lower. lra.
      * replace (x - IZR p)%R with (IZR (-1) + 1 / 2)%R by lra.
        rewrite round_half_even_tie. simpl. lia.
    + destruct (Rle_lt_or_eq_dec _ _ Hhi) as [H | H].
      * apply round_half_even_upper. lra.
      * replace (x - IZR p)%R with (IZR 24 + 1 / 2)%R by lra.
        rewrite round_half_even_tie. simpl. lia.
Qed.

(** ** More on the Fretboard Mapper *)

Lemma fret_assignment_Fin (t : tuning) (x : R) :
  exists st,
    choose_string t (Fin x) = Ok st /\
    first_minimal x t st /\
    fret_assignment t (Fin x) = Ok (assignment_of_state st).
Proof.
  destruct (choose_string_first_minimal x t) as (st & Hrun & Hmin).
  exists st. split; [assumption |]. split; [assumption |].
  unfold fret_assignment. cbn [np_isnan]. rewrite Hrun. reflexivity.
Qed.

Lemma descending_nth (t : tuning) :
  descending t = true ->
  forall i j si pi sj pj,
    i < j ->
    nth_error t i = Some (si, pi) ->
    nth_error t j = Some (sj, pj) ->
    (pj <= pi)%Z.
Proof.
  induction t as [| entry t IH]; intros Hd i j si pi sj pj Hij Hi Hj.
  - destruct i; discriminate.
  - cbn [descending] in Hd. apply andb_true_iff in Hd as [Hall Hd].
    destruct j as [| j]; [lia |]. cbn [nth_error] in Hj.
    destruct i as [| i]; cbn [nth_error] in Hi.
    + injection Hi as ->. rewrite forallb_forall in Hall.
      apply nth_error_In in Hj. specialize (Hall _ Hj).
      cbn [snd] in Hall. lia.
    + apply (IH Hd i j si pi sj pj); [lia | assumption | assumption].
Qed.

Lemma candidate_fret_antitone (x : R) (p q : Z) :
  (q <= p)%Z -> (candidate_fret x p <= candidate_fret x q)%Z.
Proof.
  intros H. unfold candidate_fret. apply round_half_even_mono.
  apply IZR_le in H. lra.
Qed.

(** On a descending tuning the loop ends on the first string on which
    the note is playable. *)
Lemma descending_first_playable (t : tuning) (x : R) (i : nat) s p :
  descending t = true ->
  nth_error t i = Some (s, p) ->
  valid_fret (candidate_fret x p) ->
  (forall j sj pj, j < i -> nth_error t j = Some (sj, pj) ->
                   ~ valid_fret (candidate_fret x pj)) ->
  choose_string t (Fin x) = Ok (Some s, candidate_fret x p).
Proof.
  intros Hd Hi Hv Hbefore.
  destruct (choose_string_first_minimal x t) as ([best m] & Hrun & Hmin).
  rewrite Hrun. f_equal.
  unfold first_minimal in Hmin. cbn [fst snd] in Hmin.
  destruct best as [b |].
  - destruct Hmin as (i' & p' & Hi' & Hm & Hvm & Hle & Hlt).
    destruct (Nat.lt_trichotomy i' i) as [H | [H | H]].
    + exfalso. apply (Hbefore i' b p' H Hi'). rewrite <- Hm. assumption.
    + subst i'. rewrite Hi in Hi'. injection Hi' as <- <-.
      rewrite Hm. reflexivity.
    + exfalso. specialize (Hlt i s p H Hi Hv).
      pose proof (descending_nth t Hd i i' s p b p' H Hi Hi') as Hp.
      pose proof (candidate_fret_antitone x p p' Hp). lia.
  - destruct Hmin as [_ Hnone]. exfalso.
    apply (Hnone s p); [eapply nth_error_In; eassumption | assumption].
Qed.

(** X1. For a float64 note of magnitude at most 2^1000 and an
    open-string pitch from 17 up to 2^53, midi_to_fret evaluated in
    float64 agrees with the exact subtraction, and it accepts the note
    exactly when the note lies between half a semitone below the open
    string and half a semitone above fret 24 (both ends included); the
    fret it returns is then within half a semitone of the note.  Outside
    it returns -1. *)
Theorem midi_to_fret_playable_interval (x : R) (p : Z) :
  round64 x = x ->
  (Rabs x <= bpow 1000)%R ->
  (17 <= p < 2 ^ 53)%Z ->
  midi_to_fret_float64 x p = midi_to_fret (Fin x) p /\
  ((IZR p - 1 / 2 <= x <= IZR p + 49 / 2)%R ->
   exists fret,
     midi_to_fret_float64 x p = Ok fret /\
     (0 <= fret <= 24)%Z /\
     (Rabs (x - IZR (p + fret)) <= 1 / 2)%R) /\
  ((x < IZR p - 1 / 2)%R \/ (IZR p + 49 / 2 < x)%R ->
   midi_to_fret_float64 x p = Ok (-1)%Z).
Proof.
  intros Hfloat Hbig Hp.
  rewrite (midi_to_fret_float64_agrees x p Hfloat Hbig Hp).
  split; [reflexivity |].
  split.
  - intros Hx. apply valid_candidate_interval in Hx.
    exists (candidate_fret x p). rewrite midi_to_fret_candidate.
    pose proof Hx as Hb. apply valid_fret_dec in Hb. rewrite Hb.
    split; [reflexivity |]. split; [exact Hx |].
    rewrite plus_IZR.
    replace (x - (IZR p + IZR (candidate_fret x p)))%R
      with (x - IZR p - IZR (candidate_fret x p))%R by lra.
    apply round_half_even_near.
  - intros Hx. rewrite midi_to_fret_candidate.
    destruct ((0 <=? candidate_fret x p)%Z && (candidate_fret x p <=? MAX_FRET)%Z)
      eqn:Hb; [| reflexivity].
    apply valid_fret_dec, valid_candidate_interval in Hb. lra.
Qed.

Lemma midi_to_fret_playable_interval_witness :
  midi_to_fret_float64 69 64 = midi_to_fret (Fin 69) 64 /\
  ((IZR 64 - 1 / 2 <= 69 <= IZR 64 + 49 / 2)%R ->
   exists fret,
     midi_to_fret_float64 69 64 = Ok fret /\
     (0 <= fret <= 24)%Z /\
     (Rabs (69 - IZR (64 + fret)) <= 1 / 2)%R) /\
  ((69 < IZR 64 - 1 / 2)%R \/ (IZR 64 + 49 / 2 < 69)%R ->
   midi_to_fret_float64 69 64 = Ok (-1)%Z).
Proof.
  apply (midi_to_fret_playable_interval 69 64).
  - apply (round64_int 69). cbn. lia.
  - apply (int_within_float_range 69). cbn. lia.
  - cbn. lia.
Defined.

(** X2. Transposing the note and the open string by the same whole
    number of semitones does not change the result of midi_to_fret
    evaluated in float64, when both notes are float64 values of
    magnitude at most 2^1000 and both pitches lie from 17 up to 2^53. *)
Theorem midi_to_fret_transpose (x : R) (p k : Z) :
  round64 x = x ->
  round64 (x + IZR k) = (x + IZR k)%R ->
  (Rabs x <= bpow 1000)%R ->
  (Rabs (x + IZR k) <= bpow 1000)%R ->
  (17 <= p < 2 ^ 53)%Z ->
  (17 <= p + k < 2 ^ 53)%Z ->
  midi_to_fret_float64 (x + IZR k) (p + k) = midi_to_fret_float64 x p.
Proof.
  intros Hx Hxk Hbx Hbxk Hp Hpk.
  rewrite !midi_to_fret_float64_agrees by assumption.
  rewrite !midi_to_fret_Fin, plus_IZR.
  replace (x + IZR k - (IZR p + IZR k))%R with (x - IZR p)%R by lra.
  reflexivity.
Qed.

Lemma midi_to_fret_transpose_witness :
  midi_to_fret_float64 (69 + IZR (-5)) (64 + -5) = midi_to_fret_float64 69 64.
Proof.
  assert (E : (69 + IZR (-5))%R = IZR 64) by (rewrite <- plus_IZR; reflexivity).
  apply (midi_to_fret_transpose 69 64 (-5)).
  - apply (round64_int 69). cbn. lia.
  - rewrite E. apply (round64_int 64). cbn. lia.
  - apply (int_within_float_range 69). cbn. lia.
  - rewrite E. apply (int_within_float_range 64). cbn. lia.
  - cbn. lia.
  - cbn. lia.
Defined.

(** X3. When the mapper assigns a string and a fret to a note, that
    string is in the tuning and the pitch of the fretted string (open
    pitch plus fret) is within half a semitone of the note. *)
Theorem assigned_fret_sounds_nearest_semitone (t : tuning) (x : R)
    (s : string) (fret : Z) :
  fret_assignment t (Fin x) = Ok (Some (s, fret)) ->
  exists p,
    In (s, p) t /\
    (0 <= fret <= MAX_FRET)%Z /\
    (Rabs (x - IZR (p + fret)) <= 1 / 2)%R.
Proof.
  destruct (fret_assignment_Fin t x) as ([best m] & _ & Hmin & ->).
  unfold assignment_of_state, first_minimal in *. cbn [fst snd] in *.
  destruct best as [b |]; [| discriminate].
  intros H. injection H as -> ->.
  destruct Hmin as (i & p & Hi & Hm & Hv & _).
  exists p. split; [eapply nth_error_In; eassumption |].
  split; [exact Hv |].
  rewrite Hm, plus_IZR.
  replace (x - (IZR p + IZR (candidate_fret x p)))%R
    with (x - IZR p - IZR (candidate_fret x p))%R by lra.
  apply round_half_even_near.
Qed.

Lemma assigned_fret_sounds_nearest_semitone_witness :
  exists p,
    In ("e", p) guitar_tuning /\
    (0 <= 5 <= MAX_FRET)%Z /\
    (Rabs (69 - IZR (p + 5)) <= 1 / 2)%R.
Proof.
  apply (assigned_fret_sounds_nearest_semitone guitar_tuning 69 "e" 5).
  apply fret_assignment_A4.
Defined.

(** X4. The mapper drops a note only when it is unplayable: the
    assignment of a finite note is SILENT exactly when midi_to_fret
    returns -1 on every string of the tuning. *)
Theorem silent_iff_unplayable_everywhere (t : tuning) (x : R) :
  fret_assignment t (Fin x) = Ok None <->
  forall s p, In (s, p) t -> midi_to_fret (Fin x) p = Ok (-1)%Z.
Proof.
  destruct (fret_assignment_Fin t x) as ([best m] & _ & Hmin & ->).
  unfold assignment_of_state, first_minimal in *. cbn [fst snd] in *.
  split.
  - destruct best as [b |]; [discriminate |]. intros _ s p Hin.
    destruct Hmin as [_ Hnone]. specialize (Hnone s p Hin).
    rewrite midi_to_fret_candidate.
    destruct ((0 <=? candidate_fret x p)%Z && (candidate_fret x p <=? MAX_FRET)%Z)
      eqn:Hb; [| reflexivity].
    apply valid_fret_dec in Hb. contradiction.
  - intros Hall. destruct best as [b |]; [| reflexivity]. exfalso.
    destruct Hmin as (i & p & Hi & Hm & Hv & _).
    specialize (Hall b p (nth_error_In _ _ Hi)).
    rewrite midi_to_fret_candidate in Hall.
    rewrite Hm in Hv. pose proof Hv as Hb. apply valid_fret_dec in Hb.
    rewrite Hb in Hall. injection Hall as E.
    unfold valid_fret in Hv. lia.
Qed.

(** X5. On a tuning declared from the highest string to the lowest, the
    minimal-fret rule always selects the first declared string on which
    the note is playable, that is the highest playable string. *)
Theorem descending_tuning_selects_highest_playable (t : tuning) (x : R)
    (i : nat) (s : string) (p : Z) :
  descending t = true ->
  nth_error t i = Some (s, p) ->
  midi_to_fret (Fin x) p <> Ok (-1)%Z ->
  (forall j sj pj, j < i -> nth_error t j = Some (sj, pj) ->
                   midi_to_fret (Fin x) pj = Ok (-1)%Z) ->
  fret_assignment t (Fin x) = Ok (Some (s, round_half_even (x - IZR p))).
Proof.
  intros Hd Hi Hp Hbefore.
  assert (Hv : valid_fret (candidate_fret x p)).
  { rewrite midi_to_fret_candidate in Hp.
    destruct ((0 <=? candidate_fret x p)%Z && (candidate_fret x p <=? MAX_FRET)%Z)
      eqn:Hb; [apply valid_fret_dec; assumption | congruence]. }
  assert (Hnv : forall j sj pj, j < i -> nth_error t j = Some (sj, pj) ->
                                ~ valid_fret (candidate_fret x pj)).
  { intros j sj pj Hj Hnth Hvj. specialize (Hbefore j sj pj Hj Hnth).
    rewrite midi_to_fret_candidate in Hbefore.
    pose proof Hvj as Hb. apply valid_fret_dec in Hb. rewrite Hb in Hbefore.
    injection Hbefore as E. unfold valid_fret in Hvj. lia. }
  unfold fret_assignment. cbn [np_isnan].
  rewrite (descending_first_playable t x i s p Hd Hi Hv Hnv). reflexivity.
Qed.

Lemma descending_tuning_selects_highest_playable_witness :
  fret_assignment guitar_tuning (Fin 60) = Ok (Some ("B", round_half_even (60 - 59))).
Proof.
  apply (descending_tuning_selects_highest_playable guitar_tuning 60 1 "B" 59).
  - reflexivity.
  - reflexivity.
  - rewrite midi_to_fret_int. discriminate.
  - intros j sj pj Hj Hnth.
    destruct j as [| j]; [| lia].
    injection Hnth as <- <-. rewrite midi_to_fret_int. reflexivity.
Defined.

Lemma choose_string_none (t : tuning) (x : R) :
  (forall s p, In (s, p) t -> ~ valid_fret (candidate_fret x p)) ->
  choose_string t (Fin x) = Ok (None, 100%Z).
Proof.
  intros Hnone.
  destruct (choose_string_first_minimal x t) as ([best m] & Hrun & Hmin).
  rewrite Hrun. unfold first_minimal in Hmin. cbn [fst snd] in Hmin.
  destruct best as [b |].
  - destruct Hmin as (i & p & Hi & Hm & Hv & _). exfalso.
    apply (Hnone b p); [eapply nth_error_In; eassumption |].
    rewrite <- Hm. assumption.
  - destruct Hmin as [-> _]. reflexivity.
Qed.

Lemma invalid_below (x : R) (p : Z) :
  (x < IZR p - 1 / 2)%R -> ~ valid_fret (candidate_fret x p).
Proof. intros H Hv. apply valid_candidate_interval in Hv. lra. Qed.

Lemma invalid_above (x : R) (p : Z) :
  (IZR p + 49 / 2 < x)%R -> ~ valid_fret (candidate_fret x p).
Proof. intros H Hv. apply valid_candidate_interval in Hv. lra. Qed.

(** The strings of the standard tuning before index [i] reject a note
    that lies below their open pitch by more than half a semitone. *)
Ltac earlier_strings_invalid :=
  let j := fresh "j" in
  let Hj := fresh "Hj" in
  let Hnth := fresh "Hnth" in
  intros j ? ? Hj Hnth;
  repeat (destruct j as [| j];
          [injection Hnth as <- <-; apply invalid_below; lra |]);
  lia.

Ltac on_string i s p :=
  unfold fret_assignment; cbn [np_isnan];
  rewrite (descending_first_playable guitar_tuning _ i s p);
  [ reflexivity
  | reflexivity
  | reflexivity
  | apply valid_candidate_interval; lra
  | earlier_strings_invalid ].

(** X6. The standard tuning, note by note: a finite note is dropped
    exactly below 39.5 and above 88.5; from 63.5 up it always goes to
    the top string 'e'; below that it goes to the highest string whose
    open pitch is at most half a semitone above it, so the five lower
    strings only ever show the frets 0 to 4 (0 to 3 on 'G'). *)
Theorem standard_tuning_string_ranges (x : R) :
  ((x < 79 / 2)%R \/ (177 / 2 < x)%R ->
   fret_assignment guitar_tuning (Fin x) = Ok None) /\
  ((127 / 2 <= x <= 177 / 2)%R ->
   fret_assignment guitar_tuning (Fin x)
   = Ok (Some ("e", round_half_even (x - 64)))) /\
  ((117 / 2 <= x < 127 / 2)%R ->
   fret_assignment guitar_tuning (Fin x)
   = Ok (Some ("B", round_half_even (x - 59))) /\
   (round_half_even (x - 59) <= 4)%Z) /\
  ((109 / 2 <= x < 117 / 2)%R ->
   fret_assignment guitar_tuning (Fin x)
   = Ok (Some ("G", round_half_even (x - 55))) /\
   (round_half_even (x - 55) <= 3)%Z) /\
  ((99 / 2 <= x < 109 / 2)%R ->
   fret_assignment guitar_tuning (Fin x)
   = Ok (Some ("D", round_half_even (x - 50))) /\
   (round_half_even (x - 50) <= 4)%Z) /\
  ((89 / 2 <= x < 99 / 2)%R ->
   fret_assignment guitar_tuning (Fin x)
   = Ok (Some ("A", round_half_even (x - 45))) /\
   (round_half_even (x - 45) <= 4)%Z) /\
  ((79 / 2 <= x < 89 / 2)%R ->
   fret_assignment guitar_tuning (Fin x)
   = Ok (Some ("E", round_half_even (x - 40))) /\
   (round_half_even (x - 40) <= 4)%Z).
Proof.
  split.
  { intros Hx. unfold fret_assignment. cbn [np_isnan].
    rewrite choose_string_none; [reflexivity |].
    intros s p Hin. simpl in Hin.
    destruct Hx as [Hx | Hx];
      repeat (destruct Hin as [Hin | Hin];
              [injection Hin as <- <-;
               first [apply invalid_below; lra | apply invalid_above; lra] |]);
      destruct Hin. }
  split; [intros Hx; on_string 0 "e" 64%Z |].
  split; [intros Hx; split;
          [on_string 1 "B" 59%Z | apply round_half_even_upper; lra] |].
  split; [intros Hx; split;
          [on_string 2 "G" 55%Z | apply round_half_even_upper; lra] |].
  split; [intros Hx; split;
          [on_string 3 "D" 50%Z | apply round_half_even_upper; lra] |].
  split; [intros Hx; split;
          [on_string 4 "A" 45%Z | apply round_half_even_upper; lra] |].
  intros Hx; split; [on_string 5 "E" 40%Z | apply round_half_even_upper; lra].
Qed.

(** ** More on the Pitch Normalizer *)

Lemma log2_div (a b : R) :
  (0 < a)%R -> (0 < b)%R -> log2 (a / b) = (log2 a - log2 b)%R.
Proof.
  intros Ha Hb. unfold log2. change (a / b)%R with (a * / b)%R.
  rewrite ln_mult, ln_Rinv by (try assumption; apply Rinv_0_lt_compat; assumption).
  field. pose proof ln_2_pos. lra.
Qed.

Lemma log2_2 : log2 2 = 1%R.
Proof. unfold log2. field. pose proof ln_2_pos. lra. Qed.

Lemma within_float_range (x : R) :
  (1 <= x <= 1024)%R -> (bpow (-1000) <= x <= bpow 1000)%R.
Proof.
  intros [Hlo Hhi].
  pose proof (bpow_le (-1000) 0 ltac:(lia)) as H0.
  pose proof (bpow_le 10 1000 ltac:(lia)) as H1.
  rewrite (bpow_IZR 0) in H0 by lia. rewrite (bpow_IZR 10) in H1 by lia.
  change (IZR (2 ^ 0)) with 1%R in H0. change (IZR (2 ^ 10)) with 1024%R in H1.
  lra.
Qed.

(** X7. hz_to_midi turns frequency ratios into semitone differences, up
    to the rounding of float64: for two frequencies between 2^-1000 and
    2^1000 the difference of the semitone values is within 2^-36 of
    12 * log2 of their ratio; in particular an octave (a doubling) adds
    12 semitones within 2^-36. *)
Theorem hz_to_midi_intervals (x y : R) :
  (bpow (-1000) <= x <= bpow 1000)%R ->
  (bpow (-1000) <= y <= bpow 1000)%R ->
  exists sx sy,
    hz_to_midi1 (Fin x) = Fin sx /\
    hz_to_midi1 (Fin y) = Fin sy /\
    (Rabs (sy - sx - 12 * log2 (y / x)) <= bpow (-36))%R /\
    (y = (2 * x)%R -> (Rabs (sy - sx - 12) <= bpow (-36))%R).
Proof.
  intros Hx Hy.
  destruct (hz_to_midi1_accuracy x Hx) as (sx & Ex & Ax).
  destruct (hz_to_midi1_accuracy y Hy) as (sy & Ey & Ay).
  exists sx, sy. split; [exact Ex |]. split; [exact Ey |].
  pose proof (bpow_pos (-1000)) as Hp.
  assert (Hx0 : (0 < x)%R) by lra. assert (Hy0 : (0 < y)%R) by lra.
  assert (E36 : bpow (-36) = (2 * bpow (-37))%R).
  { rewrite <- bpow_succ. reflexivity. }
  assert (Hratio : (Rabs (sy - sx - 12 * log2 (y / x)) <= bpow (-36))%R).
  { rewrite (log2_div y x) by assumption.
    rewrite (log2_div x 440), (log2_div y 440) in * by lra.
    apply Rabs_le_elim in Ax. apply Rabs_le_elim in Ay.
    apply Rabs_le. lra. }
  split; [exact Hratio |].
  intros ->. replace (2 * x / x)%R with 2%R in Hratio by (field; lra).
  rewrite log2_2 in Hratio. replace (12 * 1)%R with 12%R in Hratio by lra.
  exact Hratio.
Qed.

Lemma hz_to_midi_intervals_witness :
  exists sx sy,
    hz_to_midi1 (Fin 220) = Fin sx /\
    hz_to_midi1 (Fin 440) = Fin sy /\
    (Rabs (sy - sx - 12 * log2 (440 / 220)) <= bpow (-36))%R /\
    (440%R = (2 * 220)%R -> (Rabs (sy - sx - 12) <= bpow (-36))%R).
Proof.
  apply (hz_to_midi_intervals 220 440); apply within_float_range; lra.
Defined.

(** ** More on the pipeline *)

Lemma fill_tab_lines_Ok (t : tuning) (notes : list float64) (tl : tab_lines_t) :
  fill_tab_lines t notes = Ok tl ->
  exists assignments,
    mapM (fret_assignment t) notes = Ok assignments /\
    tl = lines_of t assignments.
Proof.
  rewrite fill_tab_lines_assignments.
  destruct (mapM (fret_assignment t) notes) as [assignments | e];
    cbn [bind]; [| discriminate].
  intros H. injection H as <-. exists assignments. split; reflexivity.
Qed.

Lemma lines_of_nth (t : tuning) assignments (i : nat) name line :
  nth_error (lines_of t assignments) i = Some (name, line) ->
  nth_error (map fst t) i = Some name /\
  line = map (fun a => column_symbol a name) assignments.
Proof.
  unfold lines_of. rewrite !nth_error_map.
  destruct (nth_error t i) as [[s p] |]; cbn; [| discriminate].
  intros H. injection H as <- <-. split; reflexivity.
Qed.

Lemma column_symbol_fret (a : option (string * Z)) (name : string) :
  column_symbol a name <> "-" -> exists fret, a = Some (name, fret).
Proof.
  unfold column_symbol. destruct a as [[b f] |]; [| congruence].
  destruct (String.eqb_spec name b) as [-> | _]; [| congruence].
  intros _. exists f. reflexivity.
Qed.

Lemma NoDup_nth_error_eq {A : Type} (l : list A) (i j : nat) (a : A) :
  NoDup l -> nth_error l i = Some a -> nth_error l j = Some a -> i = j.
Proof.
  intros Hnd Hi Hj.
  apply (proj1 (NoDup_nth_error l) Hnd).
  - apply nth_error_Some. rewrite Hi. discriminate.
  - rewrite Hi, Hj. reflexivity.
Qed.

(** X8. The tablature is monophonic: when the string names of the
    tuning are distinct, at most one string line carries something else
    than the placeholder in any given column. *)
Theorem at_most_one_fret_per_column (t : tuning) (notes : list float64)
    (tl : tab_lines_t) :
  NoDup (map fst t) ->
  fill_tab_lines t notes = Ok tl ->
  forall k i1 i2 name1 line1 sym1 name2 line2 sym2,
    nth_error tl i1 = Some (name1, line1) ->
    nth_error tl i2 = Some (name2, line2) ->
    nth_error line1 k = Some sym1 ->
    nth_error line2 k = Some sym2 ->
    sym1 <> "-" -> sym2 <> "-" ->
    i1 = i2.
Proof.
  intros Hnd Hfill k i1 i2 name1 line1 sym1 name2 line2 sym2 H1 H2 Hs1 Hs2 N1 N2.
  destruct (fill_tab_lines_Ok _ _ _ Hfill) as (assignments & _ & ->).
  apply lines_of_nth in H1 as [Hn1 ->]. apply lines_of_nth in H2 as [Hn2 ->].
  rewrite nth_error_map in Hs1, Hs2.
  destruct (nth_error assignments k) as [a |]; cbn in Hs1, Hs2; [| discriminate].
  injection Hs1 as <-. injection Hs2 as <-.
  apply column_symbol_fret in N1 as [f1 E1]. apply column_symbol_fret in N2 as [f2 E2].
  rewrite E1 in E2. injection E2 as E _. subst name2.
  eapply NoDup_nth_error_eq; eassumption.
Qed.

Lemma at_most_one_fret_per_column_witness :
  fill_tab_lines guitar_tuning [Fin 69; NaN]
  = Ok (lines_of guitar_tuning [Some ("e", 5%Z); None]) /\
  (0 = 0)%nat.
Proof.
  assert (Hfill : fill_tab_lines guitar_tuning [Fin 69; NaN]
                  = Ok (lines_of guitar_tuning [Some ("e", 5%Z); None])).
  { rewrite fill_tab_lines_assignments. cbn [mapM].
    rewrite fret_assignment_A4. reflexivity. }
  split; [exact Hfill |].
  apply (at_most_one_fret_per_column guitar_tuning [Fin 69; NaN]
           (lines_of guitar_tuning [Some ("e", 5%Z); None]))
    with (k := 0) (name1 := "e") (line1 := ["5"; "-"]) (sym1 := "5")
         (name2 := "e") (line2 := ["5"; "-"]) (sym2 := "5").
  - repeat constructor; simpl; intuition discriminate.
  - exact Hfill.
  - reflexivity.
  - reflexivity.
  - reflexivity.
  - reflexivity.
  - discriminate.
  - discriminate.
Defined.

(** X9. Every string of the tuning gets one tab line, in the order of
    the tuning, and every line holds exactly one symbol per kept frame:
    ceil(N / 5) symbols for N input frames. *)
Theorem tab_lines_shape (t : tuning) (f0 : list float64)
    (voiced_flag : list bool) (notes : list float64) (tl : tab_lines_t) :
  processed_notes_of f0 voiced_flag = Ok notes ->
  fill_tab_lines t notes = Ok tl ->
  map fst tl = map fst t /\
  forall name line,
    In (name, line) tl -> List.length line = ceil_div (List.length f0) step.
Proof.
  intros Hn Hfill.
  destruct (fill_tab_lines_Ok _ _ _ Hfill) as (assignments & Ha & ->).
  split.
  - unfold lines_of. rewrite map_map. reflexivity.
  - intros name line Hin. unfold lines_of in Hin.
    apply in_map_iff in Hin as (entry & E & _). injection E as _ <-.
    rewrite length_map, (mapM_length _ _ _ Ha).
    unfold processed_notes_of, midi_notes_of in Hn.
    destruct (mask_unvoiced f0 voiced_flag) as [masked |] eqn:Hm;
      cbn [bind] in Hn; [| discriminate].
    injection Hn as <-.
    rewrite stride_length by (unfold step; lia).
    unfold hz_to_midi. rewrite length_map.
    destruct (mask_unvoiced_length _ _ _ Hm) as [_ ->]. reflexivity.
Qed.

Lemma tab_lines_shape_witness :
  map fst (lines_of guitar_tuning [None; None]) = map fst guitar_tuning /\
  forall name line,
    In (name, line) (lines_of guitar_tuning [None; None]) ->
    List.length line
    = ceil_div (List.length [NaN; NaN; NaN; NaN; NaN; NaN]) step.
Proof.
  apply (tab_lines_shape guitar_tuning [NaN; NaN; NaN; NaN; NaN; NaN]
           [false; false; false; false; false; false] [NaN; NaN]);
    reflexivity.
Defined.

Lemma masked_nth (f0 : list float64) (voiced_flag : list bool) (n : nat) :
  nth_error (map (fun fv : float64 * bool => if snd fv then fst fv else NaN)
                 (combine f0 voiced_flag)) n
  = match nth_error f0 n, nth_error voiced_flag n with
    | Some f, Some v => Some (if v then f else NaN)
    | _, _ => None
    end.
Proof.
  revert voiced_flag n.
  induction f0 as [| f f0 IH]; intros [| v vs] [| n]; cbn; try reflexivity.
  - destruct (nth_error f0 n); reflexivity.
  - apply IH.
Qed.

Lemma mapM_NaN (t : tuning) (n : nat) :
  mapM (fret_assignment t) (repeat NaN n) = Ok (repeat None n).
Proof. apply mapM_repeat. reflexivity. Qed.

Lemma take_every_repeat {A : Type} (a : A) (D : nat) :
  forall n k, exists m, take_every D k (repeat a n) = repeat a m.
Proof.
  induction n as [| n IH]; intros k; cbn.
  - exists 0. reflexivity.
  - destruct k as [| k].
    + destruct (IH (D - 1)) as [m ->]. exists (S m). reflexivity.
    + apply IH.
Qed.

Lemma all_unvoiced_masked (f0 : list float64) :
  map (fun fv : float64 * bool => if snd fv then fst fv else NaN)
      (combine f0 (repeat false (List.length f0)))
  = repeat NaN (List.length f0).
Proof.
  induction f0 as [| f f0 IH]; cbn; [reflexivity |]. rewrite IH. reflexivity.
Qed.

(** X10. An input whose frames are all flagged unvoiced gives tab lines
    made of placeholders only, ceil(N / 5) of them on every string,
    whatever the frequencies are (even infinite ones), and nothing is
    raised. *)
Theorem all_unvoiced_gives_placeholders (t : tuning) (f0 : list float64) :
  exists notes,
    processed_notes_of f0 (repeat false (List.length f0)) = Ok notes /\
    fill_tab_lines t notes
    = Ok (map (fun entry =>
                 (fst entry, repeat "-" (ceil_div (List.length f0) step)))
              t) /\
    exists text,
      generate_tabs f0 (repeat false (List.length f0)) = Ok text.
Proof.
  set (n := List.length f0).
  assert (Hnotes : processed_notes_of f0 (repeat false n)
                   = Ok (repeat NaN (ceil_div n step))).
  { unfold processed_notes_of, midi_notes_of, mask_unvoiced.
    rewrite repeat_length, Nat.eqb_refl. cbn [bind]. f_equal.
    unfold n. rewrite all_unvoiced_masked. fold n.
    unfold hz_to_midi. rewrite map_repeat.
    change (hz_to_midi1 NaN) with NaN.
    destruct (take_every_repeat NaN step n 0) as [m Hm].
    unfold stride. rewrite Hm. f_equal.
    rewrite <- (repeat_length NaN m), <- Hm.
    fold (stride step (repeat NaN n)).
    rewrite stride_length by (unfold step; lia).
    rewrite repeat_length. reflexivity. }
  assert (Hfill : forall t', fill_tab_lines t' (repeat NaN (ceil_div n step))
                  = Ok (lines_of t' (repeat None (ceil_div n step)))).
  { intros t'. rewrite fill_tab_lines_assignments, mapM_NaN. reflexivity. }
  exists (repeat NaN (ceil_div n step)).
  split; [exact Hnotes |].
  split.
  - rewrite Hfill. f_equal. unfold lines_of. apply map_ext. intros entry.
    rewrite map_repeat. reflexivity.
  - unfold generate_tabs. rewrite Hnotes. cbn [bind]. rewrite Hfill. cbn [bind].
    unfold render. rewrite tab_blocks_lines. cbn [bind]. eexists. reflexivity.
Qed.

(** X11. Only the frames at positions 0, 5, 10, ... are looked at: two
    inputs of the same lengths that agree on these positions (frequency
    and voicing flag) give the same tablature, or the same exception. *)
Theorem dropped_frames_do_not_matter (f0 f0' : list float64)
    (voiced_flag voiced_flag' : list bool) :
  List.length f0 = List.length f0' ->
  List.length voiced_flag = List.length voiced_flag' ->
  (forall i, nth_error f0 (i * step) = nth_error f0' (i * step)) ->
  (forall i, nth_error voiced_flag (i * step)
             = nth_error voiced_flag' (i * step)) ->
  generate_tabs f0 voiced_flag = generate_tabs f0' voiced_flag'.
Proof.
  intros Hl Hlv Hf Hv.
  assert (Hn : processed_notes_of f0 voiced_flag
               = processed_notes_of f0' voiced_flag').
  { unfold processed_notes_of, midi_notes_of, mask_unvoiced.
    rewrite <- Hl, <- Hlv.
    destruct (List.length f0 =? List.length voiced_flag)%nat;
      cbn [bind]; [| reflexivity].
    f_equal. apply nth_error_ext. intros i.
    rewrite !stride_nth by (unfold step; lia).
    unfold hz_to_midi. rewrite !(nth_error_map hz_to_midi1), !masked_nth, Hf, Hv.
    reflexivity. }
  unfold generate_tabs. rewrite Hn. reflexivity.
Qed.

Lemma dropped_frames_do_not_matter_witness :
  generate_tabs [Fin 440; Fin 100; NaN] [true; true; true]
  = generate_tabs [Fin 440; Inf false; Fin 3] [true; false; false].
Proof.
  apply dropped_frames_do_not_matter; try reflexivity.
  - intros [| i]; [reflexivity |].
    replace (S i * step) with (S (S (S (S (S (i * step))))))
      by (unfold step; lia).
    reflexivity.
  - intros [| i]; [reflexivity |].
    replace (S i * step) with (S (S (S (S (S (i * step))))))
      by (unfold step; lia).
    reflexivity.
Defined.

(** *** When generate_tabs raises *)

Lemma mapM_Raise {A B : Type} (f : A -> result B) (l : list A) (e : exn) :
  mapM f l = Raise e -> exists a, In a l /\ f a = Raise e.
Proof.
  induction l as [| x l IH]; cbn; [discriminate |].
  destruct (f x) as [b | e'] eqn:Hx; cbn.
  - destruct (mapM f l) as [bs | e'']; cbn; [discriminate |].
    intros H. injection H as ->.
    destruct (IH eq_refl) as (a & Ha & Hfa).
    exists a. split; [right; assumption | assumption].
  - intros H. injection H as ->. exists x. split; [left; reflexivity | assumption].
Qed.

Lemma fret_assignment_Raise (t : tuning) (note : float64) (e : exn) :
  fret_assignment t note = Raise e -> e = OverflowError /\ is_inf note = true.
Proof.
  destruct note as [| b | x].
  - discriminate.
  - unfold fret_assignment, choose_string. cbn [np_isnan].
    destruct t as [| entry t]; cbn; [discriminate |].
    intros H. injection H as <-. split; reflexivity.
  - destruct (fret_assignment_total t (Fin x) eq_refl) as [a ->]. discriminate.
Qed.

Lemma fret_assignment_inf (note : float64) :
  is_inf note = true -> fret_assignment guitar_tuning note = Raise OverflowError.
Proof. destruct note as [| b | x]; cbn; try discriminate. reflexivity. Qed.

Lemma hz_to_midi1_finite (x : R) :
  (bpow (-1000) <= x <= bpow 1000)%R -> is_inf (hz_to_midi1 (Fin x)) = false.
Proof.
  intros Hx. destruct (hz_to_midi1_accuracy x Hx) as (s & -> & _). reflexivity.
Qed.

Lemma render_lines_of (assignments : list (option (string * Z))) :
  exists text, render (lines_of guitar_tuning assignments) = Ok text.
Proof.
  unfold render. rewrite tab_blocks_lines. cbn [bind]. eexists. reflexivity.
Qed.

(** A single voiced frame at the smallest positive float64 (5e-324):
    the quotient by 440.0 rounds to zero, the semitone value is minus
    infinity and [int(round(...))] raises. *)
Example smallest_frequency_raises :
  generate_tabs [Fin (bpow (-1074))] [true] = Raise OverflowError.
Proof.
  assert (E : hz_to_midi1 (Fin (bpow (-1074))) = Inf true).
  { pose proof (bpow_pos (-1074)) as Hp. pose proof (bpow_pos (-1075)) as Hq.
    assert (E' : bpow (-1074) = (2 * bpow (-1075))%R).
    { rewrite <- bpow_succ. reflexivity. }
    apply hz_to_midi1_underflow; [lra |].
    rewrite Rabs_pos_eq by (unfold Rdiv; nra). lra. }
  unfold generate_tabs, processed_notes_of, midi_notes_of, mask_unvoiced,
    hz_to_midi.
  cbn -[hz_to_midi1 bpow]. rewrite E. reflexivity.
Qed.

(** X12. generate_tabs can fail in two ways only.  It raises IndexError
    exactly when the frequency and flag sequences differ in length, and
    OverflowError exactly when, the lengths being equal, the semitone
    value of some kept voiced frame (position 0, 5, 10, ...) is
    infinite; it never raises KeyError or ValueError, and it returns a
    text when neither happens.  The semitone value is infinite for the
    frequency +infinity and for a nonzero frequency so small that its
    quotient by 440 is below 2^-1075 and rounds to zero; it is not for a
    frequency between 2^-1000 and 2^1000. *)
Theorem generate_tabs_failures (f0 : list float64) (voiced_flag : list bool) :
  (forall e,
      generate_tabs f0 voiced_flag = Raise e <->
      (e = IndexError /\ List.length f0 <> List.length voiced_flag) \/
      (e = OverflowError /\
       List.length f0 = List.length voiced_flag /\
       exists i f, nth_error f0 (i * step) = Some f /\
                   nth_error voiced_flag (i * step) = Some true /\
                   is_inf (hz_to_midi1 f) = true)) /\
  (List.length f0 = List.length voiced_flag ->
   (forall i f, nth_error f0 (i * step) = Some f ->
                nth_error voiced_flag (i * step) = Some true ->
                is_inf (hz_to_midi1 f) = false) ->
   exists text, generate_tabs f0 voiced_flag = Ok text) /\
  is_inf (hz_to_midi1 (Inf false)) = true /\
  (forall x, x <> 0%R -> (Rabs (x / 440) < bpow (-1075))%R ->
             is_inf (hz_to_midi1 (Fin x)) = true) /\
  (forall x, (bpow (-1000) <= x <= bpow 1000)%R ->
             is_inf (hz_to_midi1 (Fin x)) = false).
Proof.
  assert (Hiff : forall e,
      generate_tabs f0 voiced_flag = Raise e <->
      (e = IndexError /\ List.length f0 <> List.length voiced_flag) \/
      (e = OverflowError /\
       List.length f0 = List.length voiced_flag /\
       exists i f, nth_error f0 (i * step) = Some f /\
                   nth_error voiced_flag (i * step) = Some true /\
                   is_inf (hz_to_midi1 f) = true)).
  { intros e.
    unfold generate_tabs, processed_notes_of, midi_notes_of, mask_unvoiced.
    destruct (Nat.eqb_spec (List.length f0) (List.length voiced_flag)) as [Hl | Hl];
      cbn [bind].
    2:{ split.
        - intros H. injection H as <-. left. split; [reflexivity | assumption].
        - intros [[-> _] | (_ & Hl' & _)]; [reflexivity | contradiction]. }
    set (masked := map (fun fv : float64 * bool => if snd fv then fst fv else NaN)
                       (combine f0 voiced_flag)).
    set (notes := stride step (hz_to_midi masked)).
    assert (Hnth : forall k,
               nth_error notes k
               = match nth_error f0 (k * step), nth_error voiced_flag (k * step) with
                 | Some f, Some v => Some (hz_to_midi1 (if v then f else NaN))
                 | _, _ => None
                 end).
    { intros k. unfold notes. rewrite stride_nth by (unfold step; lia).
      unfold hz_to_midi, masked.
      rewrite (nth_error_map hz_to_midi1), masked_nth.
      destruct (nth_error f0 (k * step)); [| reflexivity].
      destruct (nth_error voiced_flag (k * step)); reflexivity. }
    rewrite fill_tab_lines_assignments.
    destruct (mapM (fret_assignment guitar_tuning) notes) as [assignments | e']
      eqn:Hmap; cbn [bind].
    - destruct (render_lines_of assignments) as [text ->].
      split; [discriminate |].
      intros [[_ Hne] | (_ & _ & i & f & Hf & Hv & Hinf)];
        [contradiction | exfalso].
      assert (Hnote : nth_error notes i = Some (hz_to_midi1 f)).
      { rewrite Hnth, Hf, Hv. reflexivity. }
      destruct (mapM_nth _ _ _ _ _ Hmap Hnote) as (a & Ha & _).
      rewrite (fret_assignment_inf _ Hinf) in Ha. discriminate.
    - apply mapM_Raise in Hmap as (note & Hin & Hraise).
      apply fret_assignment_Raise in Hraise as [-> Hinf].
      apply In_nth_error in Hin as [k Hk].
      rewrite Hnth in Hk.
      destruct (nth_error f0 (k * step)) as [f |] eqn:Hf; [| discriminate].
      destruct (nth_error voiced_flag (k * step)) as [v |] eqn:Hv; [| discriminate].
      injection Hk as <-.
      destruct v; [| discriminate].
      split.
      + intros H. injection H as <-. right.
        split; [reflexivity |]. split; [assumption |].
        exists k, f. repeat split; assumption.
      + intros [[_ Hne] | (-> & _)]; [contradiction | reflexivity]. }
  split; [exact Hiff |].
  split.
  { intros Hl Hfinite.
    destruct (generate_tabs f0 voiced_flag) as [text | e] eqn:Hrun.
    - exists text. reflexivity.
    - exfalso. destruct (proj1 (Hiff e) eq_refl)
        as [[_ Hne] | (_ & _ & i & f & Hf & Hv & Hinf)]; [contradiction |].
      rewrite (Hfinite i f Hf Hv) in Hinf. discriminate. }
  split; [reflexivity |].
  split.
  { intros x Hx Hsmall. rewrite hz_to_midi1_underflow by assumption. reflexivity. }
  apply hz_to_midi1_finite.
Qed.

(** *** The layout of the text *)

Lemma append_assoc_s (a b c : string) :
  ((a ++ b) ++ c)%string = (a ++ b ++ c)%string.
Proof. induction a as [| ch a IH]; cbn; [reflexivity | rewrite IH; reflexivity]. Qed.

Lemma final_output_layout (blocks : list (list (string * list string))) :
  String.concat newline (final_output_of blocks)
  = String.concat newline
      (map (fun b => (block_text b ++ newline ++ newline)%string) blocks).
Proof.
  induction blocks as [| b1 [| b2 rest] IH].
  - reflexivity.
  - reflexivity.
  - rewrite final_output_separator, IH.
    cbn [map String.concat]. rewrite !append_assoc_s. reflexivity.
Qed.

(** X13. The text of the renderer, for any number of blocks: every
    block text (six lines joined by newlines) is followed by two
    newlines, and one more newline stands between two consecutive
    blocks; without blocks the text is empty. *)
Theorem render_layout (tab_lines : tab_lines_t)
    (blocks : list (list (string * list string))) :
  tab_blocks tab_lines = Ok blocks ->
  render tab_lines
  = Ok (String.concat newline
          (map (fun b => (block_text b ++ newline ++ newline)%string) blocks)).
Proof.
  intros H. unfold render. rewrite H. cbn [bind]. f_equal.
  apply final_output_layout.
Qed.

Lemma render_layout_witness :
  render (lines_of guitar_tuning [Some ("e", 5%Z); None])
  = Ok (String.concat newline
          (map (fun b => (block_text b ++ newline ++ newline)%string)
               [block_at [Some ("e", 5%Z); None] 0])).
Proof.
  apply (render_layout (lines_of guitar_tuning [Some ("e", 5%Z); None])).
  reflexivity.
Defined.

Lemma take_every_0_cons {A : Type} (D : nat) (x : A) (l : list A) :
  stride D (x :: l) = x :: take_every D (D - 1) l.
Proof. reflexivity. Qed.

Lemma range_from_nonempty (fuel stop s : nat) :
  1 <= stop -> exists rest, range_from (S fuel) 0 stop s = 0 :: rest.
Proof.
  intros H. cbn [range_from].
  destruct (Nat.ltb_spec 0 stop) as [_ | Hge]; [| lia].
  eexists. reflexivity.
Qed.

Lemma block_text_nonempty assignments (i : nat) :
  exists rest, block_text (block_at assignments i) = String "e" rest.
Proof. eexists. reflexivity. Qed.

(** X14. Whenever generate_tabs returns a text, that text is empty
    exactly when there is no frame at all; as soon as there is one frame
    the text starts with the label of the first line, "e|".  Without
    frames it does return the empty text. *)
Theorem empty_text_iff_no_frames (f0 : list float64) (voiced_flag : list bool) :
  generate_tabs [] [] = Ok ""%string /\
  forall text,
    generate_tabs f0 voiced_flag = Ok text ->
    (text = ""%string <-> f0 = []) /\
    (f0 <> [] -> exists rest, text = String "e" (String "|" rest)).
Proof.
  split; [reflexivity |].
  intros text Hrun.
  unfold generate_tabs in Hrun.
  destruct (processed_notes_of f0 voiced_flag) as [notes |] eqn:Hn;
    cbn [bind] in Hrun; [| discriminate].
  rewrite fill_tab_lines_assignments in Hrun.
  destruct (mapM (fret_assignment guitar_tuning) notes) as [assignments |] eqn:Ha;
    cbn [bind] in Hrun; [| discriminate].
  pose proof (mapM_length _ _ _ Ha) as Hlen.
  unfold render in Hrun. rewrite tab_blocks_lines in Hrun. cbn [bind] in Hrun.
  injection Hrun as <-.
  unfold processed_notes_of, midi_notes_of, mask_unvoiced in Hn.
  destruct (Nat.eqb_spec (List.length f0) (List.length voiced_flag)) as [Hl | Hl];
    cbn [bind] in Hn; [| discriminate].
  destruct f0 as [| f f0].
  - (* no frame: no kept note, no block *)
    destruct voiced_flag; [| discriminate].
    cbn in Hn. injection Hn as <-. cbn in Ha. injection Ha as <-.
    split; [split; reflexivity | intros H; contradiction].
  - assert (Hne : exists a rest, assignments = a :: rest).
    { destruct voiced_flag as [| v vs]; [discriminate |].
      cbn [combine map hz_to_midi] in Hn. rewrite take_every_0_cons in Hn.
      injection Hn as <-. cbn [List.length] in Hlen.
      destruct assignments as [| a rest]; [discriminate |].
      exists a, rest. reflexivity. }
    destruct Hne as (a & rest & ->). cbn [List.length].
    unfold py_range.
    destruct (range_from_nonempty (List.length rest) (S (List.length rest))
                chunk_size ltac:(lia)) as [idx ->].
    cbn [map].
    assert (Hhead : exists tail,
               String.concat newline
                 (final_output_of (block_at (a :: rest) 0
                                   :: map (block_at (a :: rest)) idx))
               = String "e" (String "|" tail)).
    { destruct (map (block_at (a :: rest)) idx) as [| b2 bs].
      - rewrite final_output_last. eexists. reflexivity.
      - rewrite final_output_separator. eexists. reflexivity. }
    destruct Hhead as [tail ->].
    split; [split; discriminate |].
    intros _. exists tail. reflexivity.
Qed.

Lemma generate_tabs_one_A4 :
  generate_tabs [Fin 440] [true]
  = Ok ("e|5|" ++ newline ++ "B|-|" ++ newline ++ "G|-|" ++ newline
        ++ "D|-|" ++ newline ++ "A|-|" ++ newline ++ "E|-|"
        ++ newline ++ newline)%string.
Proof.
  assert (Hn : processed_notes_of [Fin 440] [true] = Ok [Fin 69]).
  { unfold processed_notes_of, midi_notes_of, mask_unvoiced, hz_to_midi.
    cbn -[hz_to_midi1]. rewrite hz_to_midi1_440. reflexivity. }
  unfold generate_tabs. rewrite Hn. cbn [bind].
  rewrite fill_tab_lines_assignments.
  cbn [mapM]. rewrite fret_assignment_A4. reflexivity.
Qed.

Lemma empty_text_iff_no_frames_witness :
  (("e|5|" ++ newline ++ "B|-|" ++ newline ++ "G|-|" ++ newline
    ++ "D|-|" ++ newline ++ "A|-|" ++ newline ++ "E|-|"
    ++ newline ++ newline)%string = ""%string <-> [Fin 440] = []) /\
  ([Fin 440] <> [] ->
   exists rest,
     ("e|5|" ++ newline ++ "B|-|" ++ newline ++ "G|-|" ++ newline
      ++ "D|-|" ++ newline ++ "A|-|" ++ newline ++ "E|-|"
      ++ newline ++ newline)%string = String "e" (String "|" rest)).
Proof.
  exact (proj2 (empty_text_iff_no_frames [Fin 440] [true]) _
               generate_tabs_one_A4).
Defined.

(** ** allowed_file *)

Example allowed_file_examples :
  allowed_file "song.mp3" = Ok true /\
  allowed_file "song.MP3" = Ok true /\
  allowed_file "a.b.Flac" = Ok true /\
  allowed_file ".wav" = Ok true /\
  allowed_file "song.mp3.exe" = Ok false /\
  allowed_file "song." = Ok false /\
  allowed_file "mp3" = Ok false /\
  allowed_file "" = Ok false.
Proof. repeat split; reflexivity. Qed.

Lemma rsplit1_None (sep : ascii) (s : string) :
  rsplit1 sep s = None <-> contains sep s = false.
Proof.
  induction s as [| c s IH]; cbn; [tauto |].
  destruct (rsplit1 sep s) as [[a b] |].
  - split; [discriminate |]. intros H. apply orb_false_iff in H as [_ H].
    apply IH in H. discriminate.
  - destruct (Ascii.eqb c sep); cbn; [split; discriminate |].
    split; intros _; [apply IH |]; reflexivity.
Qed.

Lemma rsplit1_Some (sep : ascii) (s a b : string) :
  rsplit1 sep s = Some (a, b) <->
  s = (a ++ String sep b)%string /\ contains sep b = false.
Proof.
  revert a. induction s as [| c s IH]; intros a; cbn.
  - split; [discriminate |]. intros [H _]. destruct a; discriminate.
  - destruct (rsplit1 sep s) as [[a' b'] |] eqn:E.
    + split.
      * intros H. injection H as <- <-.
        destruct (proj1 (IH a') eq_refl) as [-> Hb].
        split; [reflexivity | assumption].
      * intros [H Hb]. destruct a as [| c' a]; cbn in H.
        -- injection H as -> ->. apply rsplit1_None in Hb.
           rewrite Hb in E. discriminate.
        -- injection H as <- ->.
           assert (H : Some (a', b') = Some (a, b))
             by (apply IH; split; [reflexivity | assumption]).
           injection H as -> ->. reflexivity.
    + destruct (Ascii.eqb_spec c sep) as [-> | Hne].
      * split.
        -- intros H. injection H as <- <-.
           split; [reflexivity | apply rsplit1_None; assumption].
        -- intros [H Hb]. destruct a as [| c' a]; cbn in H.
           ++ injection H as ->. reflexivity.
           ++ injection H as <- ->.
              assert (H : None = Some (a, b))
                by (apply IH; split; [reflexivity | assumption]).
              discriminate.
      * split; [discriminate |].
        intros [H Hb]. destruct a as [| c' a]; cbn in H.
        -- injection H as -> _. contradiction.
        -- injection H as <- ->.
           assert (H : None = Some (a, b))
             by (apply IH; split; [reflexivity | assumption]).
           discriminate.
Qed.

Lemma in_set_In (x : string) (set : list string) :
  in_set x set = true <-> In x set.
Proof.
  unfold in_set. rewrite existsb_exists. split.
  - intros (y & Hy & E). apply String.eqb_eq in E. subst y. assumption.
  - intros H. exists x. split; [assumption | apply String.eqb_refl].
Qed.

Lemma allowed_file_cut (filename : string) :
  allowed_file filename
  = Ok (match rsplit1 "." filename with
        | Some (_, ext) => in_set (lower ext) ALLOWED_EXTENSIONS
        | None => false
        end).
Proof.
  unfold allowed_file, py_rsplit1, list_index.
  destruct (rsplit1 "." filename) as [[a b] |] eqn:E.
  - assert (Hc : contains "." filename = true).
    { destruct (contains "." filename) eqn:Hc; [reflexivity |].
      apply rsplit1_None in Hc. rewrite Hc in E. discriminate. }
    rewrite Hc. reflexivity.
  - apply rsplit1_None in E. rewrite E. reflexivity.
Qed.

(** X15. allowed_file never raises (the test for a dot guards the
    index into the result of rsplit), and it accepts exactly the names
    of the form stem.ext where ext holds no dot and, put to lower case,
    is one of mp3, wav, ogg, flac; the stem may be empty. *)
Theorem allowed_file_spec (filename : string) :
  (exists b, allowed_file filename = Ok b) /\
  (allowed_file filename = Ok true <->
   exists stem ext,
     filename = (stem ++ "." ++ ext)%string /\
     contains "." ext = false /\
     In (lower ext) ALLOWED_EXTENSIONS).
Proof.
  rewrite allowed_file_cut. split; [eexists; reflexivity |].
  destruct (rsplit1 "." filename) as [[a b] |] eqn:E.
  - apply rsplit1_Some in E as [-> Hb]. split.
    + intros H.
      assert (Hin : in_set (lower b) ALLOWED_EXTENSIONS = true) by congruence.
      apply in_set_In in Hin.
      exists a, b. repeat split; assumption.
    + intros (stem & ext & Heq & Hext & Hin).
      assert (H : rsplit1 "." (a ++ String "." b) = Some (stem, ext)).
      { apply rsplit1_Some. split; assumption. }
      assert (H' : rsplit1 "." (a ++ String "." b) = Some (a, b)).
      { apply rsplit1_Some. split; [reflexivity | assumption]. }
      rewrite H' in H. injection H as -> ->.
      f_equal. apply in_set_In. assumption.
  - split; [discriminate |].
    intros (stem & ext & Heq & Hext & _). exfalso.
    assert (H : rsplit1 "." filename = Some (stem, ext)).
    { apply rsplit1_Some. split; assumption. }
    rewrite E in H. discriminate.
Qed.

(** X16. Only what follows the last dot counts, and its case does not:
    two names whose last extensions agree up to case get the same
    answer from allowed_file, whatever precedes the last dot. *)
Theorem allowed_file_last_extension (stem stem' ext ext' : string) :
  contains "." ext = false ->
  contains "." ext' = false ->
  lower ext = lower ext' ->
  allowed_file (stem ++ "." ++ ext) = allowed_file (stem' ++ "." ++ ext').
Proof.
  intros He He' Hl. rewrite !allowed_file_cut.
  assert (H : rsplit1 "." (stem ++ "." ++ ext) = Some (stem, ext)).
  { apply rsplit1_Some. split; [reflexivity | assumption]. }
  assert (H' : rsplit1 "." (stem' ++ "." ++ ext') = Some (stem', ext')).
  { apply rsplit1_Some. split; [reflexivity | assumption]. }
  rewrite H, H', Hl. reflexivity.
Qed.

Lemma allowed_file_last_extension_witness :
  allowed_file ("take.1.final" ++ "." ++ "MP3") = allowed_file ("" ++ "." ++ "mp3").
Proof. apply allowed_file_last_extension; reflexivity. Defined.

(** ** The /process route *)

Lemma allowed_file_Ok (filename : string) :
  exists b, allowed_file filename = Ok b.
Proof. rewrite allowed_file_cut. eexists. reflexivity. Qed.

Lemma allowed_file_form (filename : string) :
  allowed_file filename = Ok true ->
  exists stem ext,
    filename = (stem ++ "." ++ ext)%string /\
    contains "." ext = false /\
    In (lower ext) ALLOWED_EXTENSIONS.
Proof.
  rewrite allowed_file_cut.
  destruct (rsplit1 "." filename) as [[a b] |] eqn:E; [| discriminate].
  apply rsplit1_Some in E as [-> Hb]. intros H.
  assert (Hin : in_set (lower b) ALLOWED_EXTENSIONS = true) by congruence.
  apply in_set_In in Hin. exists a, b. repeat split; assumption.
Qed.



(** X17. The route saves and analyses an upload only when its name has
    the form stem.ext with an allowed extension.  A request without a
    file or with an empty file name is redirected, any other name gets
    the bad-format answer, and in both cases the file system is left as
    it was; no exception of allowed_file ever escapes. *)
Theorem process_gate (request_file : option file_storage) (fs : list string) :
  (forall e, fst (process request_file fs) <> Uncaught e) /\
  (fst (process request_file fs) = Redirect \/
   fst (process request_file fs) = BadFormat ->
   snd (process request_file fs) = fs) /\
  (fst (process request_file fs) = Redirect <->
   request_file = None \/
   exists file, request_file = Some file /\ file_filename file = "") /\
  (fst (process request_file fs) <> Redirect ->
   fst (process request_file fs) <> BadFormat ->
   exists file stem ext,
     request_file = Some file /\
     file_filename file = (stem ++ "." ++ ext)%string /\
     contains "." ext = false /\
     In (lower ext) ALLOWED_EXTENSIONS).
Proof.
  unfold process.
  destruct request_file as [file |].
  2:{ cbn [fst snd].
      split; [discriminate |]. split; [reflexivity |].
      split; [split; [intros _; left; reflexivity | reflexivity] |].
      intros H. exfalso. apply H. reflexivity. }
  destruct (String.eqb_spec (file_filename file) "") as [He | Hne].
  { cbn [fst snd].
    split; [discriminate |]. split; [reflexivity |].
    split.
    - split; [| reflexivity].
      intros _. right. exists file. split; [reflexivity | assumption].
    - intros H. exfalso. apply H. reflexivity. }
  destruct (allowed_file_Ok (file_filename file)) as [b Hb]. rewrite Hb.
  destruct b.
  - pose proof (allowed_file_form _ Hb) as (stem & ext & Hform).
    assert (Hgoal : forall r : response * list string,
               fst r = ProcessingError \/ fst r = SaveFailed \/
               (exists t n, fst r = ResultPage t n) ->
               (forall e, fst r <> Uncaught e) /\
               (fst r = Redirect \/ fst r = BadFormat -> snd r = fs) /\
               (fst r = Redirect <->
                Some file = None \/
                exists file', Some file = Some file' /\ file_filename file' = "") /\
               (fst r <> Redirect -> fst r <> BadFormat ->
                exists file' stem ext,
                  Some file = Some file' /\
                  file_filename file' = (stem ++ "." ++ ext)%string /\
                  contains "." ext = false /\
                  In (lower ext) ALLOWED_EXTENSIONS)).
    { intros r Hr.
      assert (Hnr : fst r <> Redirect)
        by (destruct Hr as [-> | [-> | (t & n & ->)]]; discriminate).
      assert (Hnb : fst r <> BadFormat)
        by (destruct Hr as [-> | [-> | (t & n & ->)]]; discriminate).
      split; [destruct Hr as [-> | [-> | (t & n & ->)]]; discriminate |].
      split; [intros [H | H]; contradiction |].
      split.
      - split; [intros H; contradiction |].
        intros [H | (file' & H & He)]; [discriminate |].
        injection H as <-. contradiction.
      - intros _ _. exists file, stem, ext. split; [reflexivity | exact Hform]. }
    apply Hgoal.
    destruct (file_save file _); [| right; left; reflexivity].
    destruct (analyse file) as [text |]; [| left; reflexivity].
    destruct (file_remove file); [| left; reflexivity].
    right; right. eexists _, _. reflexivity.
  - cbn [fst snd]. split; [discriminate |].
    split; [reflexivity |].
    split.
    + split; [discriminate |].
      intros [H | (file' & H & He)]; [discriminate |].
      injection H as <-. contradiction.
    + intros _ H. contradiction.
Qed.



Example process_examples :
  let saved := fun _ : string => true in
  process None [] = (Redirect, []) /\
  process (Some {| file_filename := "notes.txt"; file_save := saved;
                   file_pitch := None; file_remove := true |}) []
  = (BadFormat, []) /\
  process (Some {| file_filename := "broken.mp3"; file_save := saved;
                   file_pitch := None; file_remove := true |}) []
  = (ProcessingError, ["uploads/broken.mp3"]) /\
  process (Some {| file_filename := "/tmp/x.mp3"; file_save := saved;
                   file_pitch := None; file_remove := true |}) []
  = (ProcessingError, ["/tmp/x.mp3"]) /\
  process (Some {| file_filename := "a/b.mp3"; file_save := fun _ => false;
                   file_pitch := None; file_remove := true |}) []
  = (SaveFailed, []) /\
  process (Some {| file_filename := "riff.wav"; file_save := saved;
                   file_pitch := Some ([NaN], [false]); file_remove := true |})
          ["uploads/old.mp3"]
  = (ResultPage ("e|-|" ++ newline ++ "B|-|" ++ newline ++ "G|-|" ++ newline
                 ++ "D|-|" ++ newline ++ "A|-|" ++ newline ++ "E|-|"
                 ++ newline ++ newline) "riff.wav",
     ["uploads/old.mp3"]).
Proof. repeat split; reflexivity. Qed.
